(** * s3-utility-scripts: recursive S3 download and same-bucket folder copy

    A model of [s3_dowload_files/download.py] (class [S3DirectoryDownloader])
    and [s3_folder_copier/s3_folder_copier.py] (class [S3FolderCopier]),
    together with the properties the design document states about them.

    Conventions of the model.
    - A Python [str] is a [string]; one [ascii] stands for one character.
      Only character-level operations occur ([startswith], [endswith],
      slicing, [split], [+]), none of which looks inside a character.
    - A Python [int] counter is a [nat]: the counters start at 0 and are
      only ever incremented.
    - [os.path] is [posixpath].
    - The object store and the file system are an environment [env] that
      says, for each call the scripts make, whether it returns or which
      exception it raises; the calls made are recorded in a trace.
    - Progress lines written with [print] are not modelled; the summary is
      returned as a record instead of being printed. The clock readings
      [start_time] and [end_time] of the copier are left out.
    - A run starts from a constructed object: the creation of the boto3
      client in [__init__] is assumed to succeed.
    - The workers of the pool run interleaved, one atomic step at a time.
      The main thread only writes [total_files] and the list of futures,
      which no worker touches, so planning is modelled as finished before
      the first worker moves. *)

From Stdlib Require Import String Ascii List QArith Lia.
From stdpp Require Import base list.

Set Default Proof Using "Type".

(** ** Python string operations *)

Module PyStr.
Local Open Scope string_scope.

(** [bool(s)]: a string is true when it is not empty. *)
Definition truthy (s : string) : bool :=
  match s with
  | EmptyString => false
  | String _ _ => true
  end.

(** [s.startswith(p)] *)
Fixpoint startswith (s p : string) {struct p} : bool :=
  match p, s with
  | EmptyString, _ => true
  | String _ _, EmptyString => false
  | String b p', String a s' => Ascii.eqb a b && startswith s' p'
  end.

(** [s[n:]] for [n >= 0]: past the end the slice is empty. *)
Fixpoint slice_from (n : nat) (s : string) : string :=
  match n, s with
  | O, _ => s
  | S _, EmptyString => EmptyString
  | S n', String _ s' => slice_from n' s'
  end.

(** [s[:n]] for [n >= 0]. *)
Fixpoint slice_to (n : nat) (s : string) : string :=
  match n, s with
  | O, _ => EmptyString
  | S _, EmptyString => EmptyString
  | S n', String a s' => String a (slice_to n' s')
  end.

(** [s.endswith(p)] *)
Definition endswith (s p : string) : bool :=
  (String.length p <=? String.length s)%nat
  && String.eqb (slice_from (String.length s - String.length p) s) p.

(** [s.split(sep, 1)] for a separator of one character: the part before
    the first [sep] and the part after it, or [s] alone. *)
Fixpoint split_once (sep : ascii) (s : string) : list string :=
  match s with
  | EmptyString => [EmptyString]
  | String a s' =>
      if Ascii.eqb a sep then [EmptyString; s']
      else match split_once sep s' with
           | [] => [String a EmptyString]
           | h :: t => String a h :: t
           end
  end.

(** [parts[i]] of a list of strings, for an index known to be in range. *)
Definition item (parts : list string) (i : nat) : string :=
  nth i parts EmptyString.

(** [s.rfind(c) + 1] for a character [c]: the length of the longest
    initial part of [s] that ends with [c], 0 when [c] does not occur. *)
Fixpoint rfind_succ (c : ascii) (s : string) : nat :=
  match s with
  | EmptyString => 0
  | String a s' =>
      match rfind_succ c s' with
      | O => if Ascii.eqb a c then 1 else 0
      | S k => S (S k)
      end
  end.

(** [s.rstrip(c)] for a character [c]. *)
Fixpoint rstrip (c : ascii) (s : string) : string :=
  match s with
  | EmptyString => EmptyString
  | String a s' =>
      match rstrip c s' with
      | EmptyString => if Ascii.eqb a c then EmptyString else String a EmptyString
      | r => String a r
      end
  end.

(** [c * n] *)
Fixpoint repeat_char (c : ascii) (n : nat) : string :=
  match n with
  | O => EmptyString
  | S n' => String c (repeat_char c n')
  end.
End PyStr.

(** ** posixpath *)

Module PosixPath.
Import PyStr.
Local Open Scope string_scope.

Definition sep : ascii := "/"%char.

(** [os.path.join(a, b)] with one component after [a]. *)
Definition join (a b : string) : string :=
  if startswith b "/" then b
  else if negb (truthy a) || endswith a "/" then a ++ b
  else a ++ "/" ++ b.

(** [os.path.dirname(p)] *)
Definition dirname (p : string) : string :=
  let i := rfind_succ sep p in
  let head := slice_to i p in
  if truthy head && negb (String.eqb head (repeat_char sep (String.length head)))
  then rstrip sep head
  else head.
End PosixPath.

(** ** Exceptions, external calls and the environment *)

(** The exception classes the scripts can meet. [ClientError] is botocore's;
    [OtherError] stands for any other [Exception] subclass (for instance
    botocore's connection errors, which do not derive from [ClientError]). *)
Inductive exn :=
| ClientError
| OSError
| ValueError (msg : string)
| OtherError.

(** [isinstance(e, ClientError)], the test of [except ClientError]. *)
Definition is_ClientError (e : exn) : bool :=
  match e with
  | ClientError => true
  | _ => false
  end.

(** Outcome of a Python call. *)
Inductive result (A : Type) :=
| Returned (a : A)
| Raised (e : exn).
Arguments Returned {A} a.
Arguments Raised {A} e.

(** ** Path parser, as both classes define it *)

Module Parser.
Import PyStr.
Local Open Scope string_scope.

Definition _parse_s3_path (s3_path : string) : string * string :=
  (* Remove s3:// if present *)
  let s3_path :=
    if startswith s3_path "s3://" then slice_from 5 s3_path else s3_path in
  (* Split into bucket and prefix *)
  let parts := split_once "/" s3_path in
  let bucket_name := item parts 0 in
  let prefix := if (1 <? List.length parts)%nat then item parts 1 else "" in
  (* Ensure prefix ends with a / if it's not empty *)
  let prefix :=
    if truthy prefix && negb (endswith prefix "/") then prefix ++ "/"
    else prefix in
  (bucket_name, prefix).

(** A call [self._parse_s3_path(s3_path)]. The body has no [raise] and
    applies only total operations to a [str], so the call returns. *)
Definition call_parse_s3_path (s3_path : string) : result (string * string) :=
  Returned (_parse_s3_path s3_path).
End Parser.

(** Calls to the outside world. *)
Inductive call :=
| Makedirs (path : string)
    (* os.makedirs(path, exist_ok=True) *)
| DownloadFile (bucket key filename : string)
    (* s3_client.download_file(bucket, key, filename) *)
| CopyObject (bucket source_key dest_key : string)
    (* s3_client.copy_object(CopySource={Bucket, Key}, Bucket=bucket, Key=dest_key) *)
| Paginate (bucket prefix : string).
    (* iteration over paginator.paginate(Bucket=bucket, Prefix=prefix) *)

(** One page of [list_objects_v2]: the keys under ['Contents'], or [None]
    when the page has no ['Contents'] entry. *)
Definition page := option (list string).

(** What iterating a paginator yields: some pages and then either the end of
    the listing or an exception. *)
Record listing := {
  pages : list page;
  broken : option exn
}.

(** The environment: [run_call c] is [None] when the call [c] returns and
    [Some e] when it raises [e]; [paginate n bucket prefix] is what the
    [n]-th listing pass of a run observes (two passes over one prefix need
    not see the same objects).

    The outcome of a call is a function of the call alone, and a listing
    pass is fixed before the workers move. The model therefore describes
    the runs in which what a call does is not changed by the calls that
    other units made before it. It does not describe a run in which one
    unit writes a file where another unit needs a directory, nor a copy
    whose second listing pass sees objects that its own workers wrote;
    no statement below is meant for such runs, and none says that the
    result of a run is the same for every interleaving in general. *)
Record env := {
  run_call : call -> option exn;
  paginate : nat -> string -> string -> listing;
  path_isdir : string -> bool;    (* os.path.isdir *)
  path_exists : string -> bool    (* os.path.exists *)
}.

(** ** The worker pool

    [ThreadPoolExecutor(max_workers=W)] running [download_file] or
    [copy_object] once per submitted task. Both functions have the same
    shape:
<<
        try:
            <external calls>
            with self.lock:
                self.<succeeded> += 1
            return True
        except ClientError as e:
            with self.lock:
                self.<failed> += 1
            return False
>>
    A worker is a program counter over this shape. The increment under the
    lock is split into its read and its write, so that an interleaving
    which lost an update would be a behaviour of the model. *)

Module Pool.

Inductive counter := Succeeded | Failed.

Definition return_value (c : counter) : bool :=
  match c with
  | Succeeded => true
  | Failed => false
  end.

Inductive pc :=
| Queued (cs : list call)       (* submitted, no worker has taken it yet *)
| Calling (cs : list call)      (* in the try body, calls still to make *)
| Acquiring (c : counter)       (* at [with self.lock], not yet holding it *)
| Reading (c : counter)         (* holding the lock, before reading self.c *)
| Writing (c : counter) (v : nat) (* holding the lock, about to store v *)
| Releasing (c : counter)       (* leaving the [with] block *)
| Done (r : result bool).       (* the future is resolved *)

Record pool := {
  threads : list pc;
  lock : option nat;            (* index of the holder *)
  succeeded : nat;
  failed : nat;
  trace : list call             (* calls made so far, oldest first *)
}.

Definition get (c : counter) (s : pool) : nat :=
  match c with
  | Succeeded => succeeded s
  | Failed => failed s
  end.

Definition put (c : counter) (v : nat) (s : pool) : pool :=
  match c with
  | Succeeded =>
      {| threads := threads s; lock := lock s; succeeded := v;
         failed := failed s; trace := trace s |}
  | Failed =>
      {| threads := threads s; lock := lock s; succeeded := succeeded s;
         failed := v; trace := trace s |}
  end.

Definition set_thread (i : nat) (p : pc) (s : pool) : pool :=
  {| threads := <[i := p]> (threads s); lock := lock s;
     succeeded := succeeded s; failed := failed s; trace := trace s |}.

Definition set_lock (o : option nat) (s : pool) : pool :=
  {| threads := threads s; lock := o; succeeded := succeeded s;
     failed := failed s; trace := trace s |}.

Definition log (c : call) (s : pool) : pool :=
  {| threads := threads s; lock := lock s; succeeded := succeeded s;
     failed := failed s; trace := trace s ++ [c] |}.

(** A task occupies a worker from the moment it is taken until its
    future is resolved. *)
Definition is_active (p : pc) : bool :=
  match p with
  | Queued _ | Done _ => false
  | _ => true
  end.

Definition active (l : list pc) : nat :=
  List.length (List.filter is_active l).

Definition is_done (p : pc) : bool :=
  match p with
  | Done _ => true
  | _ => false
  end.

Section Run.
Variable E : env.
Variable W : nat.             (* max_workers *)

(** One step of task [i], or [None] when it cannot move: it is
    finished, it waits for a free worker, or it waits for the lock. *)
Definition step (i : nat) (s : pool) : option pool :=
  match threads s !! i with
  | None => None
  | Some (Queued cs) =>
      if (active (threads s) <? W)%nat
      then Some (set_thread i (Calling cs) s)
      else None
  | Some (Calling []) => Some (set_thread i (Acquiring Succeeded) s)
  | Some (Calling (c :: cs)) =>
      match run_call E c with
      | None => Some (set_thread i (Calling cs) (log c s))
      | Some e =>
          if is_ClientError e
          then Some (set_thread i (Acquiring Failed) (log c s))
          else Some (set_thread i (Done (Raised e)) (log c s))
      end
  | Some (Acquiring c) =>
      match lock s with
      | None => Some (set_thread i (Reading c) (set_lock (Some i) s))
      | Some _ => None
      end
  | Some (Reading c) => Some (set_thread i (Writing c (get c s + 1)) s)
  | Some (Writing c v) => Some (set_thread i (Releasing c) (put c v s))
  | Some (Releasing c) =>
      Some (set_thread i (Done (Returned (return_value c))) (set_lock None s))
  | Some (Done _) => None
  end.

(** A schedule names, step by step, the task that moves next; a task
    that cannot move is passed over. *)
Fixpoint exec (sched : list nat) (s : pool) : pool :=
  match sched with
  | [] => s
  | i :: sched' =>
      match step i s with
      | Some s' => exec sched' s'
      | None => exec sched' s
      end
  end.

(** The first task of [0 .. n-1] that can move. *)
Fixpoint first_enabled (n : nat) (s : pool) : option pool :=
  match n with
  | O => None
  | S n' =>
      match first_enabled n' s with
      | Some s' => Some s'
      | None => step n' s
      end
  end.

(** Steps a task still has to make. *)
Definition todo (p : pc) : nat :=
  match p with
  | Queued cs => List.length cs + 6
  | Calling cs => List.length cs + 5
  | Acquiring _ => 4
  | Reading _ => 3
  | Writing _ _ => 2
  | Releasing _ => 1
  | Done _ => 0
  end.

Fixpoint drain (fuel : nat) (s : pool) : pool :=
  match fuel with
  | O => s
  | S fuel' =>
      match first_enabled (List.length (threads s)) s with
      | Some s' => drain fuel' s'
      | None => s
      end
  end.

(** The executor's [shutdown(wait=True)], reached when the [with] block
    is left: whatever the schedule left unfinished runs to the end. *)
Definition join (s : pool) : pool :=
  drain (list_sum (List.map todo (threads s))) s.

Definition submit_all (tasks : list (list call)) (ok ko : nat)
    (tr : list call) : pool :=
  {| threads := List.map Queued tasks; lock := None;
     succeeded := ok; failed := ko; trace := tr |}.

(** The whole life of the pool under the schedule [sched]. *)
Definition run (sched : list nat) (tasks : list (list call))
    (ok ko : nat) (tr : list call) : pool :=
  join (exec sched (submit_all tasks ok ko tr)).

(** [future.result()] for each future in turn: the first exception
    stored in a future is raised again. *)
Fixpoint results (l : list pc) : result unit :=
  match l with
  | [] => Returned tt
  | Done (Raised e) :: _ => Raised e
  | _ :: l' => results l'
  end.

(** What a task does when nothing runs beside it. *)
Fixpoint alone (cs : list call) : result bool :=
  match cs with
  | [] => Returned true
  | c :: cs' =>
      match run_call E c with
      | None => alone cs'
      | Some e => if is_ClientError e then Returned false else Raised e
      end
  end.
End Run.

(** *** Bookkeeping for the proofs *)

(** Whether a task is inside [with self.lock]. *)
Definition holds (p : pc) : bool :=
  match p with
  | Reading _ | Writing _ _ | Releasing _ => true
  | _ => false
  end.

(** What a task has added to the counter [c] so far. *)
Definition credit (c : counter) (p : pc) : nat :=
  match p, c with
  | Releasing Succeeded, Succeeded | Done (Returned true), Succeeded => 1
  | Releasing Failed, Failed | Done (Returned false), Failed => 1
  | _, _ => 0
  end.

(** The calls a task has not made yet. *)
Definition pending (p : pc) : list call :=
  match p with
  | Queued cs | Calling cs => cs
  | _ => []
  end.

Definition tally (f : pc -> nat) (l : list pc) : nat :=
  list_sum (List.map f l).

Definition returned (b : bool) (r : result bool) : bool :=
  match r with
  | Returned b' => Bool.eqb b b'
  | Raised _ => false
  end.

(** How many of the results are [return b]. *)
Definition count_returned (b : bool) (rs : list (result bool)) : nat :=
  List.length (List.filter (returned b) rs).

Definition raised (r : result bool) : bool :=
  match r with
  | Returned _ => false
  | Raised _ => true
  end.

(** How many of the results are an exception. *)
Definition count_raised (rs : list (result bool)) : nat :=
  List.length (List.filter raised rs).

(** The lock discipline and the meaning of the counters: the lock is held
    exactly by the task inside the [with] block, a value about to be
    stored is one more than the counter, and each counter is its initial
    value plus what the tasks have added. *)
Record inv (ok ko : nat) (s : pool) : Prop := {
  inv_holder : forall i, lock s = Some i ->
    exists p, threads s !! i = Some p /\ holds p = true;
  inv_excl : forall j p, threads s !! j = Some p -> holds p = true ->
    lock s = Some j;
  inv_fresh : forall j c v, threads s !! j = Some (Writing c v) ->
    v = (get c s + 1)%nat;
  inv_succeeded :
    succeeded s = (ok + tally (credit Succeeded) (threads s))%nat;
  inv_failed : failed s = (ko + tally (credit Failed) (threads s))%nat
}.

(** Every call of the trace past [tr], and every call still to be made,
    satisfies [P]. *)
Definition traced (P : call -> Prop) (tr : list call) (s : pool) : Prop :=
  (exists rest, trace s = (tr ++ rest)%list /\ Forall P rest)
  /\ forall i p, threads s !! i = Some p -> Forall P (pending p).

Section Moves.
Variable E : env.
Variable W : nat.

(** What a task will have returned or raised once it is done. *)
Definition fate (p : pc) : result bool :=
  match p with
  | Queued cs | Calling cs => alone E cs
  | Acquiring c | Reading c | Writing c _ | Releasing c =>
      Returned (return_value c)
  | Done r => r
  end.

(** The ways a task moves, with what each does to the shared state. *)
Inductive moves (i : nat) (s : pool) : pc -> pc -> pool -> Prop :=
| m_start cs :
    (active (threads s) < W)%nat ->
    moves i s (Queued cs) (Calling cs) s
| m_body_end :
    moves i s (Calling []) (Acquiring Succeeded) s
| m_call_ok c cs :
    run_call E c = None ->
    moves i s (Calling (c :: cs)) (Calling cs) (log c s)
| m_call_caught c cs e :
    run_call E c = Some e -> is_ClientError e = true ->
    moves i s (Calling (c :: cs)) (Acquiring Failed) (log c s)
| m_call_raised c cs e :
    run_call E c = Some e -> is_ClientError e = false ->
    moves i s (Calling (c :: cs)) (Done (Raised e)) (log c s)
| m_acquire c :
    lock s = None ->
    moves i s (Acquiring c) (Reading c) (set_lock (Some i) s)
| m_read c :
    moves i s (Reading c) (Writing c (get c s + 1)) s
| m_write c v :
    moves i s (Writing c v) (Releasing c) (put c v s)
| m_release c :
    moves i s (Releasing c) (Done (Returned (return_value c)))
      (set_lock None s).

(** Executions: any number of steps, each of any task that can move. *)
Inductive reach : pool -> pool -> Prop :=
| reach_refl s : reach s s
| reach_step s i s' s'' :
    step E W i s = Some s' -> reach s' s'' -> reach s s''.
End Moves.
End Pool.

(** [ThreadPoolExecutor(max_workers=n)] refuses [n <= 0]. *)
Definition ThreadPoolExecutor (max_workers : Z) : result nat :=
  if (max_workers <=? 0)%Z
  then Raised (ValueError "max_workers must be greater than 0")
  else Returned (Z.to_nat max_workers).

(** The success rate of a summary: the text "No files processed", or a
    percentage. The percentage is kept as the rational number that Python
    then rounds to a float and prints with two decimals. *)
Inductive success_rate :=
| NoFilesProcessed
| Percent (q : Q).

Record summary := {
  sum_total : nat;
  sum_succeeded : nat;
  sum_errors : nat;
  sum_rate : success_rate
}.

Definition percentage (part total : nat) : Q :=
  (inject_Z (Z.of_nat part) / inject_Z (Z.of_nat total) * 100)%Q.

(** ** download.py *)

Module Download.
Import PyStr.
Local Open Scope string_scope.

Record S3DirectoryDownloader := {
  total_files : nat;
  downloaded_files : nat;
  download_errors : nat
}.

(** [S3DirectoryDownloader()] *)
Definition new : S3DirectoryDownloader :=
  {| total_files := 0; downloaded_files := 0; download_errors := 0 |}.

Definition _parse_s3_path := Parser._parse_s3_path.

(** The arguments of one [executor.submit(self.download_file, ...)]. *)
Record task := {
  bucket_name : string;
  key : string;
  local_path : string
}.

(** [download_file]: the calls of its try body. The rest of the function
    is the shape that [Pool] runs. *)
Definition download_file (t : task) : list call :=
  [ Makedirs (PosixPath.dirname (local_path t));
    DownloadFile (bucket_name t) (key t) (local_path t) ].

(** [key[len(prefix):]] if prefix is not empty, else [key]. *)
Definition relative_path (prefix key : string) : string :=
  if truthy prefix then slice_from (String.length prefix) key else key.

(** The loop over [page['Contents']]; the state is [self.total_files]
    and the list [futures]. *)
Fixpoint each_object (bucket prefix local_directory : string)
    (contents : list string) (st : nat * list task) : nat * list task :=
  match contents with
  | [] => st
  | key :: rest =>
      let total := fst st + 1 in
      let relative_path := relative_path prefix key in
      (* Skip if it's a directory marker (object ending with /) *)
      if String.eqb relative_path "" || endswith key "/"
      then each_object bucket prefix local_directory rest (total, snd st)
      else
        let local_path := PosixPath.join local_directory relative_path in
        let future :=
          {| bucket_name := bucket; key := key; local_path := local_path |} in
        each_object bucket prefix local_directory rest
          (total, (snd st ++ [future])%list)
  end.

(** The loop over the pages. *)
Fixpoint each_page (bucket prefix local_directory : string)
    (ps : list page) (st : nat * list task) : nat * list task :=
  match ps with
  | [] => st
  | None :: rest => each_page bucket prefix local_directory rest st
  | Some contents :: rest =>
      each_page bucket prefix local_directory rest
        (each_object bucket prefix local_directory contents st)
  end.

(** Everything a run leaves behind. *)
Record run := {
  self : S3DirectoryDownloader;
  submitted : list task;
  futures : list Pool.pc;
  calls : list call;
  outcome : result unit
}.

Definition download_directory (E : env) (sched : list nat)
    (self0 : S3DirectoryDownloader)
    (s3_path local_directory : string) (max_workers : Z) : run :=
  let '(bucket_name, prefix) := _parse_s3_path s3_path in
  (* Create local directory if it doesn't exist *)
  match run_call E (Makedirs local_directory) with
  | Some e =>
      {| self := self0; submitted := []; futures := [];
         calls := [Makedirs local_directory]; outcome := Raised e |}
  | None =>
      match ThreadPoolExecutor max_workers with
      | Raised e =>
          {| self := self0; submitted := []; futures := [];
             calls := [Makedirs local_directory]; outcome := Raised e |}
      | Returned W =>
          let ls := paginate E 0 bucket_name prefix in
          let '(total, tasks) :=
            each_page bucket_name prefix local_directory (pages ls)
              (total_files self0, []) in
          let p :=
            Pool.run E W sched (List.map download_file tasks)
              (downloaded_files self0) (download_errors self0)
              [Makedirs local_directory; Paginate bucket_name prefix] in
          {| self := {| total_files := total;
                        downloaded_files := Pool.succeeded p;
                        download_errors := Pool.failed p |};
             submitted := tasks;
             futures := Pool.threads p;
             calls := Pool.trace p;
             outcome := match broken ls with
                        | Some e => Raised e
                        | None => Pool.results (Pool.threads p)
                        end |}
      end
  end.

Definition print_summary (self : S3DirectoryDownloader) : summary :=
  {| sum_total := total_files self;
     sum_succeeded := downloaded_files self;
     sum_errors := download_errors self;
     sum_rate :=
       if (0 <? total_files self)%nat
       then Percent (percentage (downloaded_files self) (total_files self))
       else NoFilesProcessed |}.

Record exit := {
  exit_code : Z;
  printed : option summary;
  final : option run
}.

Definition main (E : env) (sched : list nat)
    (s3_path local_directory : string) (max_workers : Z) : exit :=
  (* Validate local directory *)
  if negb (path_isdir E local_directory) && path_exists E local_directory
  then {| exit_code := 1; printed := None; final := None |}
  else
    let downloader := new in
    let r := download_directory E sched downloader s3_path local_directory
               max_workers in
    match outcome r with
    | Returned _ =>
        {| exit_code := 0; printed := Some (print_summary (self r));
           final := Some r |}
    | Raised _ => {| exit_code := 1; printed := None; final := Some r |}
    end.
End Download.

(** ** s3_folder_copier.py *)

Module Copy.
Import PyStr.
Local Open Scope string_scope.

(** [start_time] and [end_time] are left out: they hold readings of the
    clock and only feed the elapsed time of the summary. *)
Record S3FolderCopier := {
  total_files : nat;
  copied_files : nat;
  copy_errors : nat
}.

(** [S3FolderCopier()] *)
Definition new : S3FolderCopier :=
  {| total_files := 0; copied_files := 0; copy_errors := 0 |}.

Definition _parse_s3_path := Parser._parse_s3_path.

(** The arguments of one [executor.submit(self.copy_object, ...)]. *)
Record task := {
  bucket_name : string;
  source_key : string;
  dest_key : string
}.

(** [copy_object]: the call of its try body. *)
Definition copy_object (t : task) : list call :=
  [ CopyObject (bucket_name t) (source_key t) (dest_key t) ].

(** [source_key[len(source_prefix):]] if the prefix is not empty, else
    [source_key]. *)
Definition relative_path (source_prefix source_key : string) : string :=
  if truthy source_prefix
  then slice_from (String.length source_prefix) source_key
  else source_key.

(** First pass, the loop over [page['Contents']] that counts. *)
Fixpoint count_objects (contents : list string) (total : nat) : nat :=
  match contents with
  | [] => total
  | key :: rest =>
      (* Skip if it's a directory marker (object ending with /) *)
      if endswith key "/" then count_objects rest total
      else count_objects rest (total + 1)
  end.

Fixpoint count_pages (ps : list page) (total : nat) : nat :=
  match ps with
  | [] => total
  | Some contents :: rest => count_pages rest (count_objects contents total)
  | None :: rest => count_pages rest total
  end.

(** Second pass, the loop over [page['Contents']] that submits. *)
Fixpoint each_object (source_bucket source_prefix dest_prefix : string)
    (contents : list string) (futures : list task) : list task :=
  match contents with
  | [] => futures
  | source_key :: rest =>
      if endswith source_key "/"
      then each_object source_bucket source_prefix dest_prefix rest futures
      else
        let relative_path := relative_path source_prefix source_key in
        let dest_key := dest_prefix ++ relative_path in
        let future :=
          {| bucket_name := source_bucket; source_key := source_key;
             dest_key := dest_key |} in
        each_object source_bucket source_prefix dest_prefix rest
          (futures ++ [future])%list
  end.

Fixpoint each_page (source_bucket source_prefix dest_prefix : string)
    (ps : list page) (futures : list task) : list task :=
  match ps with
  | [] => futures
  | None :: rest =>
      each_page source_bucket source_prefix dest_prefix rest futures
  | Some contents :: rest =>
      each_page source_bucket source_prefix dest_prefix rest
        (each_object source_bucket source_prefix dest_prefix contents futures)
  end.

Record run := {
  self : S3FolderCopier;
  submitted : list task;
  futures : list Pool.pc;
  calls : list call;
  outcome : result unit
}.

Definition stopped (self0 : S3FolderCopier) (cs : list call)
    (r : result unit) : run :=
  {| self := self0; submitted := []; futures := []; calls := cs;
     outcome := r |}.

Definition copy_folder (E : env) (sched : list nat) (self0 : S3FolderCopier)
    (source_s3_path dest_s3_path : string) (max_workers : Z) : run :=
  let '(source_bucket, source_prefix) := _parse_s3_path source_s3_path in
  let '(dest_bucket, dest_prefix) := _parse_s3_path dest_s3_path in
  (* Ensure we're operating within the same bucket *)
  if negb (String.eqb source_bucket dest_bucket)
  then stopped self0 []
         (Raised (ValueError
            "Source and destination buckets must be the same for this script"))
  else
    (* First, count total files to copy *)
    let first := paginate E 0 source_bucket source_prefix in
    let total := count_pages (pages first) (total_files self0) in
    let counted :=
      {| total_files := total; copied_files := copied_files self0;
         copy_errors := copy_errors self0 |} in
    let listed := [Paginate source_bucket source_prefix] in
    match broken first with
    | Some e => stopped counted listed (Raised e)
    | None =>
        (* If there are no files to copy, exit early *)
        if (total =? 0)%nat then stopped counted listed (Returned tt)
        else
          match ThreadPoolExecutor max_workers with
          | Raised e => stopped counted listed (Raised e)
          | Returned W =>
              let second := paginate E 1 source_bucket source_prefix in
              let tasks :=
                each_page source_bucket source_prefix dest_prefix
                  (pages second) [] in
              let p :=
                Pool.run E W sched (List.map copy_object tasks)
                  (copied_files self0) (copy_errors self0)
                  (listed ++ [Paginate source_bucket source_prefix])%list in
              {| self := {| total_files := total;
                            copied_files := Pool.succeeded p;
                            copy_errors := Pool.failed p |};
                 submitted := tasks;
                 futures := Pool.threads p;
                 calls := Pool.trace p;
                 outcome := match broken second with
                            | Some e => Raised e
                            | None => Pool.results (Pool.threads p)
                            end |}
          end
    end.

Definition print_summary (self : S3FolderCopier) : summary :=
  {| sum_total := total_files self;
     sum_succeeded := copied_files self;
     sum_errors := copy_errors self;
     sum_rate :=
       if (0 <? total_files self)%nat
       then Percent (percentage (copied_files self) (total_files self))
       else NoFilesProcessed |}.

Record exit := {
  exit_code : Z;
  printed : option summary;
  final : run
}.

Definition main (E : env) (sched : list nat)
    (source_path dest_path : string) (max_workers : Z) : exit :=
  let copier := new in
  let r := copy_folder E sched copier source_path dest_path max_workers in
  match outcome r with
  | Returned _ =>
      {| exit_code := 0; printed := Some (print_summary (self r));
         final := r |}
  | Raised _ => {| exit_code := 1; printed := None; final := r |}
  end.
End Copy.

(** ** Vocabulary of the design document *)

Module Spec.
Import PyStr.
Local Open Scope string_scope.

(** "strip an optional scheme:// prefix" *)
Definition strip_scheme (raw : string) : string :=
  if startswith raw "s3://" then slice_from 5 raw else raw.

(** "split on the first / into bucket and remainder": the bucket. *)
Fixpoint before_slash (s : string) : string :=
  match s with
  | EmptyString => EmptyString
  | String a s' =>
      if Ascii.eqb a "/" then EmptyString else String a (before_slash s')
  end.

(** "split on the first / into bucket and remainder": the remainder. *)
Fixpoint after_slash (s : string) : string :=
  match s with
  | EmptyString => EmptyString
  | String a s' => if Ascii.eqb a "/" then s' else after_slash s'
  end.

(** "the bucket portion (the part before the first / after stripping the
    scheme)" *)
Definition bucket_portion (raw : string) : string :=
  before_slash (strip_scheme raw).

(** "if remainder non-empty and lacks trailing /, append one" *)
Definition normalize (remainder : string) : string :=
  if String.eqb remainder "" then ""
  else if endswith remainder "/" then remainder
  else remainder ++ "/".

(** "prefix is either empty or trailing-slash-terminated" *)
Definition normalized (prefix : string) : Prop :=
  prefix = "" \/ endswith prefix "/" = true.

(** The address [scheme://bucket/prefix] of a parsed pair, as the scripts
    themselves print it. *)
Definition address (bucket prefix : string) : string :=
  "s3://" ++ bucket ++ "/" ++ prefix.

(** An environment in which every call returns and every listing pass
    sees the pages [ps]. *)
Definition quiet (ps : list page) : env :=
  {| run_call := fun _ => None;
     paginate := fun _ _ _ => {| pages := ps; broken := None |};
     path_isdir := fun _ => true;
     path_exists := fun _ => true |}.

(** The same, except that the calls [bad] raise [e]. *)
Definition failing (ps : list page) (bad : call -> bool) (e : exn) : env :=
  {| run_call := fun c => if bad c then Some e else None;
     paginate := fun _ _ _ => {| pages := ps; broken := None |};
     path_isdir := fun _ => true;
     path_exists := fun _ => true |}.

(** The listing of the download scenario of the design document. *)
Definition scenario_listing : list page :=
  [Some ["a/f1.txt"; "a/f2.txt"; "a/sub/"]].

(** [os.makedirs("/out/sub", exist_ok=True)] *)
Definition makes_out_sub (c : call) : bool :=
  match c with
  | Makedirs path => String.eqb path "/out/sub"
  | _ => false
  end.

(** The store refuses the object [a/f2.txt]. *)
Definition fetches_f2 (c : call) : bool :=
  match c with
  | DownloadFile _ key _ => String.eqb key "a/f2.txt"
  | CopyObject _ key _ => String.eqb key "a/f2.txt"
  | _ => false
  end.

(** The keys of a listing, page after page. *)
Definition listed (ps : list page) : list string :=
  flat_map (fun pg : page =>
              match pg with
              | Some contents => contents
              | None => []
              end) ps.

(** "Directory marker": a key that ends with the separator. *)
Definition marker (key : string) : bool := endswith key "/".

(** The keys the download planner submits: those that are no markers and
    have a relative path. *)
Definition download_keeps (prefix key : string) : bool :=
  negb (String.eqb (Download.relative_path prefix key) "" || marker key).

(** The transfer unit of a key in download mode. *)
Definition download_task (bucket prefix local_directory key : string)
    : Download.task :=
  {| Download.bucket_name := bucket; Download.key := key;
     Download.local_path :=
       PosixPath.join local_directory (Download.relative_path prefix key) |}.

(** The keys the copy planner counts and submits. *)
Definition copy_keeps (key : string) : bool := negb (marker key).

(** The transfer unit of a key in copy mode. *)
Definition copy_task (bucket source_prefix dest_prefix key : string)
    : Copy.task :=
  {| Copy.bucket_name := bucket; Copy.source_key := key;
     Copy.dest_key := dest_prefix ++ Copy.relative_path source_prefix key |}.

(** A call that transfers no marker key. *)
Definition moves_no_marker (c : call) : Prop :=
  match c with
  | DownloadFile _ key _ | CopyObject _ key _ => marker key = false
  | _ => True
  end.

(** A call a worker makes: a transfer of a key that is no marker, or the
    creation of a directory, never a listing. *)
Definition worker_call (c : call) : Prop :=
  match c with
  | Paginate _ _ => False
  | _ => moves_no_marker c
  end.

(** A listing call, if [c] is one, is for [bucket] and [prefix]. *)
Definition lists_under (bucket prefix : string) (c : call) : Prop :=
  match c with
  | Paginate b p => b = bucket /\ p = prefix
  | _ => True
  end.

(** What a summary must say about the rate, given its counters: "No files
    processed" exactly when the total is 0, otherwise the rational number
    succeeded / total * 100. *)
Definition rate_ok (s : summary) : Prop :=
  (sum_rate s = NoFilesProcessed <-> sum_total s = 0%nat)
  /\ match sum_rate s with
     | NoFilesProcessed => True
     | Percent q =>
         (q * inject_Z (Z.of_nat (sum_total s))
          == inject_Z (Z.of_nat (sum_succeeded s)) * 100)%Q
     end.
End Spec.

(** ** Further notions used by the properties of the runs *)

Module Notions.
Import PyStr.
Local Open Scope string_scope.

(** ['/' in s] *)
Fixpoint has_slash (s : string) : bool :=
  match s with
  | EmptyString => false
  | String a s' => Ascii.eqb a "/" || has_slash s'
  end.

(** How many tasks are inside [with self.lock]. *)
Definition holders (l : list Pool.pc) : nat :=
  List.length (List.filter Pool.holds l).

(** The call that must have returned before [c] is made: the creation of
    the directory of a file before the file is fetched. *)
Definition prerequisite (c : call) : option call :=
  match c with
  | DownloadFile _ _ filename => Some (Makedirs (PosixPath.dirname filename))
  | _ => None
  end.

(** In the trace [tr] every call comes after its prerequisite, and the
    prerequisite returned. *)
Definition in_order (E : env) (tr : list call) : Prop :=
  forall n c m, tr !! n = Some c -> prerequisite c = Some m ->
    run_call E m = None /\ exists j, (j < n)%nat /\ tr !! j = Some m.

(** The prerequisites of the calls still to be made by a task are either
    earlier calls of the task or calls of the trace that returned. *)
Definition will_be_in_order (E : env) (tr cs : list call) : Prop :=
  forall n c m, cs !! n = Some c -> prerequisite c = Some m ->
    (exists j, (j < n)%nat /\ cs !! j = Some m)
    \/ (run_call E m = None /\ exists j, tr !! j = Some m).

(** Every exception of the environment is a [ClientError]. *)
Definition only_client_errors (E : env) : Prop :=
  forall c e, run_call E c = Some e -> is_ClientError e = true.

(** A call that moves an object. *)
Definition is_transfer (c : call) : bool :=
  match c with
  | DownloadFile _ _ _ | CopyObject _ _ _ => true
  | _ => false
  end.

(** The pool state keeps the calls in order. *)
Definition orderly (E : env) (s : Pool.pool) : Prop :=
  in_order E (Pool.trace s)
  /\ forall i p, Pool.threads s !! i = Some p ->
       will_be_in_order E (Pool.trace s) (Pool.pending p).

(** An environment in which every call returns and every listing pass
    yields the pages [ps] and then raises [e]. *)
Definition interrupted (ps : list page) (e : exn) : env :=
  {| run_call := fun _ => None;
     paginate := fun _ _ _ => {| pages := ps; broken := Some e |};
     path_isdir := fun _ => true;
     path_exists := fun _ => true |}.

(** A rate is at most 100 percent. *)
Definition at_most_100 (r : success_rate) : Prop :=
  match r with
  | NoFilesProcessed => True
  | Percent q => (q <= 100)%Q
  end.
End Notions.

Example parse_ex1 :
  Parser._parse_s3_path "s3://bucket-name/prefix" = ("bucket-name", "prefix/")%string.
Proof. reflexivity. Qed.

Example parse_ex2 : Parser._parse_s3_path "b/x/y/" = ("b", "x/y/")%string.
Proof. reflexivity. Qed.

Example parse_ex3 : Parser._parse_s3_path "s3://b" = ("b", "")%string.
Proof. reflexivity. Qed.

Example dirname_ex1 : PosixPath.dirname "/out/sub/f1.txt" = "/out/sub"%string.
Proof. reflexivity. Qed.

Example dirname_ex2 : PosixPath.dirname "//f" = "//"%string.
Proof. reflexivity. Qed.

Example dirname_ex3 : PosixPath.dirname "f" = ""%string.
Proof. reflexivity. Qed.

Example join_ex1 : PosixPath.join "/out" "f1.txt" = "/out/f1.txt"%string.
Proof. reflexivity. Qed.

(** Two tasks without calls and two workers. Task 0 takes the lock and
    reads the counter; task 1 is then refused the lock however often it is
    scheduled, and both increments arrive. *)
Example pool_ex1 :
  let s := Pool.exec (Spec.quiet []) 2 [0; 0; 0; 0; 1; 1; 1; 1; 1]%nat
             (Pool.submit_all [[]; []] 0 0 []) in
  Pool.threads s = [Pool.Writing Pool.Succeeded 1; Pool.Acquiring Pool.Succeeded]
  /\ Pool.lock s = Some 0%nat
  /\ Pool.step (Spec.quiet []) 2 1 s = None
  /\ Pool.succeeded (Pool.join (Spec.quiet []) 2 s) = 2%nat.
Proof. repeat split. Qed.

(** With one worker the second task cannot start before the first is
    done. *)
Example pool_ex2 :
  let s := Pool.exec (Spec.quiet []) 1 [0; 1; 1]%nat
             (Pool.submit_all [[]; []] 0 0 []) in
  Pool.threads s = [Pool.Calling []; Pool.Queued []].
Proof. reflexivity. Qed.

(** ** Facts about the string operations *)

Section StringFacts.
Import PyStr Spec.
Local Open Scope string_scope.

Lemma str_length_app (a b : string) :
  String.length (a ++ b) = (String.length a + String.length b)%nat.
Proof. induction a as [|c a IH]; simpl; [reflexivity | now rewrite IH]. Qed.

Lemma app_empty_r (a : string) : a ++ "" = a.
Proof. induction a as [|c a IH]; simpl; [reflexivity | now rewrite IH]. Qed.

Lemma app_assoc_s (a b c : string) : (a ++ b) ++ c = a ++ (b ++ c).
Proof. induction a as [|x a IH]; simpl; [reflexivity | now rewrite IH]. Qed.

Lemma slice_from_app (a b : string) : slice_from (String.length a) (a ++ b) = b.
Proof. induction a as [|c a IH]; simpl; [reflexivity | exact IH]. Qed.

Lemma slice_from_0 (s : string) : slice_from 0 s = s.
Proof. destruct s; reflexivity. Qed.

Lemma startswith_app (p r : string) : startswith (p ++ r) p = true.
Proof.
  induction p as [|c p IH]; simpl; [reflexivity |].
  now rewrite Ascii.eqb_refl, IH.
Qed.

(** A string that starts with [p] is [p] followed by its slice past [p]. *)
Lemma startswith_split (s p : string) :
  startswith s p = true -> s = p ++ slice_from (String.length p) s.
Proof.
  revert s; induction p as [|b p IH]; intros s H; simpl.
  - reflexivity.
  - destruct s as [|a s]; simpl in H; [discriminate |].
    apply andb_prop in H as [Hab Hs].
    apply Ascii.eqb_eq in Hab; subst b.
    f_equal. now apply IH.
Qed.

Lemma endswith_app (a b : string) : endswith (a ++ b) b = true.
Proof.
  unfold endswith. rewrite str_length_app.
  replace (String.length a + String.length b - String.length b)%nat
    with (String.length a) by lia.
  rewrite slice_from_app, String.eqb_refl, andb_true_r.
  apply Nat.leb_le; lia.
Qed.

Lemma truthy_false (s : string) : truthy s = false <-> s = "".
Proof. destruct s; simpl; split; congruence. Qed.

Lemma eqb_empty_truthy (s : string) : String.eqb s "" = negb (truthy s).
Proof. destruct s; reflexivity. Qed.

(** [split('/', 1)] cuts at the first slash. *)
Lemma split_once_cut (s : string) :
  item (split_once "/" s) 0 = before_slash s
  /\ (if (1 <? List.length (split_once "/" s))%nat
      then item (split_once "/" s) 1 else "") = after_slash s.
Proof.
  induction s as [|a s [IH0 IH1]]; simpl; [split; reflexivity |].
  destruct (Ascii.eqb a "/"); simpl; [split; reflexivity |].
  destruct (split_once "/" s) as [|h t]; unfold item in *; simpl in *.
  - split; [now rewrite <- IH0 | exact IH1].
  - split; [now rewrite <- IH0 | exact IH1].
Qed.

(** The parser computes what the design document describes. *)
Lemma parse_s3_path_spec (raw : string) :
  Parser._parse_s3_path raw
  = (bucket_portion raw, normalize (after_slash (strip_scheme raw))).
Proof.
  unfold Parser._parse_s3_path, bucket_portion.
  fold (strip_scheme raw).
  destruct (split_once_cut (strip_scheme raw)) as [H0 H1].
  cbv zeta. rewrite H0, H1. f_equal.
  unfold normalize. rewrite eqb_empty_truthy.
  destruct (truthy (after_slash (strip_scheme raw))) eqn:Ht; simpl.
  - destruct (endswith (after_slash (strip_scheme raw)) "/"); reflexivity.
  - now apply truthy_false.
Qed.

Lemma normalize_normalized (r : string) : normalized (normalize r).
Proof.
  unfold normalized, normalize.
  destruct (String.eqb r "") eqn:He; [now left | right].
  destruct (endswith r "/") eqn:Hs; [exact Hs | apply endswith_app].
Qed.

Lemma normalize_fixed (p : string) : normalized p -> normalize p = p.
Proof.
  unfold normalize. intros [-> | H]; [reflexivity |].
  destruct (String.eqb p "") eqn:He.
  - apply String.eqb_eq in He. now subst.
  - now rewrite H.
Qed.

Lemma strip_scheme_address (bucket prefix : string) :
  strip_scheme (address bucket prefix) = bucket ++ "/" ++ prefix.
Proof. reflexivity. Qed.

(** Cutting [bucket/prefix] at its first slash gives back the two parts,
    as soon as [bucket] itself came out of such a cut. *)
Lemma cut_rebuilt (s prefix : string) :
  before_slash (before_slash s ++ "/" ++ prefix) = before_slash s
  /\ after_slash (before_slash s ++ "/" ++ prefix) = prefix.
Proof.
  induction s as [|a s [IH0 IH1]]; simpl in *; [split; reflexivity |].
  destruct (Ascii.eqb a "/") eqn:Ha; simpl; [split; reflexivity |].
  rewrite Ha. split; [now rewrite IH0 | exact IH1].
Qed.
End StringFacts.

(** ** The worker pool is correct under every interleaving *)

Section PoolFacts.
Import Pool.
Variable E : env.
Variable W : nat.

Local Abbreviation fate := (Pool.fate E).
Local Abbreviation moves := (Pool.moves E W).

Lemma tally_insert (f : pc -> nat) (l : list pc) (i : nat) (x y : pc) :
  l !! i = Some x -> (tally f (<[i := y]> l) + f x = tally f l + f y)%nat.
Proof.
  unfold tally. revert i; induction l as [|a l IH]; intros [|i] H;
    simpl in *; try discriminate.
  - injection H as ->. lia.
  - specialize (IH i H). lia.
Qed.

Lemma insert_cases (l : list pc) (i j : nat) (x q : pc) :
  <[i := x]> l !! j = Some q ->
  (j = i /\ q = x) \/ (j <> i /\ l !! j = Some q).
Proof.
  intros H. destruct (decide (i = j)) as [->|Hne].
  - left. split; [reflexivity |].
    assert (Hlt : (j < length l)%nat).
    { apply lookup_lt_Some in H. now rewrite length_insert in H. }
    rewrite list_lookup_insert_eq in H by exact Hlt. congruence.
  - right. rewrite list_lookup_insert_ne in H by exact Hne. split; congruence.
Qed.

Lemma map_insert_same (f : pc -> result bool) (l : list pc) (i : nat) (x y : pc) :
  l !! i = Some x -> f y = f x -> List.map f (<[i := y]> l) = List.map f l.
Proof.
  revert i; induction l as [|a l IH]; intros [|i] H Hf; simpl in *;
    try discriminate.
  - injection H as ->. now rewrite Hf.
  - f_equal. now apply IH.
Qed.


Lemma lookup_set_thread_eq (i : nat) (p q : pc) (s : pool) :
  threads s !! i = Some q -> threads (set_thread i p s) !! i = Some p.
Proof.
  intros H. simpl. apply list_lookup_insert_eq. now apply lookup_lt_Some in H.
Qed.

Lemma step_moves (i : nat) (s s' : pool) :
  step E W i s = Some s' ->
  exists p p' m, threads s !! i = Some p /\ moves i s p p' m
                 /\ s' = set_thread i p' m.
Proof.
  unfold step. destruct (threads s !! i) as [p|] eqn:Hi; [|discriminate].
  destruct p as [cs|[|c cs]|c|c|c v|c|r]; intros H.
  - destruct (active (threads s) <? W)%nat eqn:Hw; [|discriminate].
    apply Nat.ltb_lt in Hw. injection H as <-. eauto 8 using Pool.moves.
  - injection H as <-. eauto 8 using Pool.moves.
  - destruct (run_call E c) as [e|] eqn:Hc.
    + destruct (is_ClientError e) eqn:He; injection H as <-;
        eauto 8 using Pool.moves.
    + injection H as <-. eauto 8 using Pool.moves.
  - destruct (lock s) eqn:Hl; [discriminate |]. injection H as <-.
    eauto 8 using Pool.moves.
  - injection H as <-. eauto 8 using Pool.moves.
  - injection H as <-. eauto 8 using Pool.moves.
  - injection H as <-. eauto 8 using Pool.moves.
  - discriminate.
Qed.


(** Conversely, every move is a step. *)
Lemma moves_step (i : nat) (s : pool) (p p' : pc) (m : pool) :
  threads s !! i = Some p -> moves i s p p' m ->
  step E W i s = Some (set_thread i p' m).
Proof.
  intros Hi Hm. unfold step. rewrite Hi.
  destruct Hm; try reflexivity.
  - apply Nat.ltb_lt in H. now rewrite H.
  - now rewrite H.
  - now rewrite H, H0.
  - now rewrite H, H0.
  - now rewrite H.
Qed.

Lemma get_set_thread c i p s : get c (set_thread i p s) = get c s.
Proof. now destruct c. Qed.

(** A move outside the lock that leaves the counters alone. *)
Lemma inv_neutral ok ko i s p p' m :
  inv ok ko s -> threads s !! i = Some p ->
  threads m = threads s -> lock m = lock s ->
  succeeded m = succeeded s -> failed m = failed s ->
  holds p = false -> holds p' = false ->
  (forall c, credit c p' = credit c p) ->
  inv ok ko (set_thread i p' m).
Proof.
  intros [Hh He Hf Hs Hk] Hi Ht Hl Hsu Hfa Hp Hp' Hc.
  constructor; simpl; rewrite ?Ht, ?Hl, ?Hsu, ?Hfa.
  - intros k Hk'. destruct (Hh k Hk') as (q & Hq & Hq').
    destruct (decide (i = k)) as [->|Hne]; [congruence |].
    exists q. now rewrite list_lookup_insert_ne.
  - intros j q Hj Hq. apply insert_cases in Hj as [[-> ->]|[Hne Hj]];
      [congruence | eauto].
  - intros j c v Hj. apply insert_cases in Hj as [[-> Hv]|[Hne Hj]];
      [now rewrite <- Hv in Hp' |].
    specialize (Hf j c v Hj). subst v. f_equal.
    destruct c; simpl; congruence.
  - pose proof (tally_insert (credit Succeeded) _ _ _ p' Hi) as Ht'.
    rewrite Hc in Ht'. lia.
  - pose proof (tally_insert (credit Failed) _ _ _ p' Hi) as Ht'.
    rewrite Hc in Ht'. lia.
Qed.

Lemma put_get c v s :
  get c (put c v s) = v
  /\ lock (put c v s) = lock s /\ threads (put c v s) = threads s.
Proof. now destruct c. Qed.

Lemma moves_inv ok ko i s p p' m :
  inv ok ko s -> threads s !! i = Some p -> moves i s p p' m ->
  inv ok ko (set_thread i p' m).
Proof.
  intros Hinv Hi Hm.
  destruct Hm; try (eapply inv_neutral; eauto; fail).
  all: destruct Hinv as [Hh He Hf Hs Hk].
  all: pose proof (lookup_lt_Some _ _ _ Hi) as Hlt.
  - (* acquire *)
    constructor; simpl.
    + intros k [= <-]. eexists. split; [now apply list_lookup_insert_eq | easy].
    + intros j q Hj Hq. apply insert_cases in Hj as [[-> _]|[Hne Hj]];
        [reflexivity |].
      specialize (He j q Hj Hq). congruence.
    + intros j c' v Hj. apply insert_cases in Hj as [[_ [=]]|[Hne Hj]].
      specialize (He j _ Hj eq_refl). congruence.
    + pose proof (tally_insert (credit Succeeded) _ _ _ (Reading c) Hi).
      simpl in *. lia.
    + pose proof (tally_insert (credit Failed) _ _ _ (Reading c) Hi).
      simpl in *. lia.
  - (* read *)
    pose proof (He i _ Hi eq_refl) as Hl.
    constructor; simpl.
    + intros k Hk'. assert (k = i) as -> by congruence.
      eexists. split; [now apply list_lookup_insert_eq | easy].
    + intros j q Hj Hq. apply insert_cases in Hj as [[-> _]|[Hne Hj]]; eauto.
    + intros j c' v Hj. rewrite get_set_thread.
      apply insert_cases in Hj as [[_ [= -> ->]]|[Hne Hj]]; eauto.
    + pose proof (tally_insert (credit Succeeded) _ _ _
                    (Writing c (get c s + 1)) Hi).
      simpl in *. lia.
    + pose proof (tally_insert (credit Failed) _ _ _
                    (Writing c (get c s + 1)) Hi).
      simpl in *. lia.
  - (* write *)
    pose proof (He i _ Hi eq_refl) as Hl.
    pose proof (Hf i _ _ Hi) as Hv.
    destruct (put_get c v s) as (Hg & Hpl & Hpt).
    constructor; simpl; rewrite ?Hpl, ?Hpt.
    + intros k Hk'. assert (k = i) as -> by congruence.
      eexists. split; [now apply list_lookup_insert_eq | easy].
    + intros j q Hj Hq. apply insert_cases in Hj as [[-> _]|[Hne Hj]]; eauto.
    + intros j c' v' Hj. apply insert_cases in Hj as [[_ [=]]|[Hne Hj]].
      specialize (He j _ Hj eq_refl). congruence.
    + pose proof (tally_insert (credit Succeeded) _ _ _ (Releasing c) Hi).
      destruct c; simpl in *; lia.
    + pose proof (tally_insert (credit Failed) _ _ _ (Releasing c) Hi).
      destruct c; simpl in *; lia.
  - (* release *)
    pose proof (He i _ Hi eq_refl) as Hl.
    constructor; simpl.
    + discriminate.
    + intros j q Hj Hq. apply insert_cases in Hj as [[-> ->]|[Hne Hj]];
        [discriminate |].
      specialize (He j q Hj Hq). congruence.
    + intros j c' v Hj. apply insert_cases in Hj as [[_ [=]]|[Hne Hj]].
      specialize (He j _ Hj eq_refl). congruence.
    + pose proof (tally_insert (credit Succeeded) _ _ _
                    (Done (Returned (return_value c))) Hi).
      destruct c; simpl in *; lia.
    + pose proof (tally_insert (credit Failed) _ _ _
                    (Done (Returned (return_value c))) Hi).
      destruct c; simpl in *; lia.
Qed.

Lemma step_inv ok ko i s s' :
  inv ok ko s -> step E W i s = Some s' -> inv ok ko s'.
Proof.
  intros Hinv H. apply step_moves in H as (p & p' & m & Hi & Hm & ->).
  eauto using moves_inv.
Qed.

Lemma exec_inv ok ko sched s : inv ok ko s -> inv ok ko (exec E W sched s).
Proof.
  revert s; induction sched as [|i sched IH]; intros s H; simpl; [exact H |].
  destruct (step E W i s) eqn:Hs; eauto using step_inv.
Qed.

(** *** Every schedule can be completed *)

Lemma first_enabled_None n s :
  first_enabled E W n s = None ->
  forall i, (i < n)%nat -> step E W i s = None.
Proof.
  induction n as [|n IH]; simpl; intros H i Hi; [lia |].
  destruct (first_enabled E W n s) eqn:Hn; [discriminate |].
  destruct (decide (i = n)) as [->|Hne]; [exact H | apply IH; [easy | lia]].
Qed.

Lemma first_enabled_Some n s s' :
  first_enabled E W n s = Some s' -> exists i, step E W i s = Some s'.
Proof.
  induction n as [|n IH]; simpl; [discriminate |].
  destruct (first_enabled E W n s) eqn:Hn.
  - intros [= <-]. now apply IH.
  - eauto.
Qed.

Lemma active_idle (l : list pc) :
  (forall i p, l !! i = Some p -> is_active p = false) -> active l = 0%nat.
Proof.
  unfold active. induction l as [|a l IH]; intros H; [reflexivity |].
  simpl. rewrite (H 0%nat a eq_refl). apply IH.
  intros i p Hp. exact (H (S i) p Hp).
Qed.

(** No deadlock: when no task can move, every task is done. *)
Lemma stuck_done ok ko s :
  inv ok ko s -> (0 < W)%nat ->
  (forall i, (i < length (threads s))%nat -> step E W i s = None) ->
  forall i p, threads s !! i = Some p -> is_done p = true.
Proof.
  intros Hinv HW Hstuck.
  assert (Hat : forall i p, threads s !! i = Some p -> step E W i s = None).
  { intros i p Hp. apply Hstuck. eapply lookup_lt_Some, Hp. }
  assert (Hfree : lock s = None).
  { destruct (lock s) as [k|] eqn:Hl; [|reflexivity].
    destruct (inv_holder _ _ _ Hinv k Hl) as (p & Hp & Hh).
    specialize (Hat k p Hp). unfold step in Hat. rewrite Hp in Hat.
    destruct p; discriminate. }
  assert (Hidle : forall i p, threads s !! i = Some p -> is_active p = false).
  { intros i p Hp. specialize (Hat i p Hp). unfold step in Hat.
    rewrite Hp, ?Hfree in Hat.
    destruct p as [cs|[|c cs]|c|c|c v|c|r]; try discriminate; try reflexivity.
    destruct (run_call E c) as [e|]; [destruct (is_ClientError e) |];
      discriminate. }
  intros i p Hp. pose proof (Hat i p Hp) as Hs. unfold step in Hs.
  rewrite Hp in Hs. pose proof (Hidle i p Hp) as Hi.
  destruct p; try discriminate; try reflexivity.
  rewrite (active_idle _ Hidle) in Hs.
  apply Nat.ltb_lt in HW. now rewrite HW in Hs.
Qed.

Lemma moves_todo i s p p' m : moves i s p p' m -> (todo p' < todo p)%nat.
Proof. destruct 1; simpl; lia. Qed.

Lemma moves_threads i s p p' m : moves i s p p' m -> threads m = threads s.
Proof. destruct 1; try reflexivity. now destruct c. Qed.

Lemma step_todo i s s' :
  step E W i s = Some s' ->
  (tally todo (threads s') < tally todo (threads s))%nat.
Proof.
  intros H. apply step_moves in H as (p & p' & m & Hi & Hm & ->). simpl.
  rewrite (moves_threads _ _ _ _ _ Hm).
  pose proof (tally_insert todo _ _ _ p' Hi).
  pose proof (moves_todo _ _ _ _ _ Hm). lia.
Qed.

Lemma todo_done (l : list pc) :
  tally todo l = 0%nat -> forall i p, l !! i = Some p -> is_done p = true.
Proof.
  unfold tally. induction l as [|a l IH]; intros H [|i] p Hp; simpl in *;
    try discriminate.
  - injection Hp as ->. destruct p; simpl in *; solve [reflexivity | lia].
  - apply (IH ltac:(lia) i p Hp).
Qed.

Lemma drain_inv ok ko fuel s : inv ok ko s -> inv ok ko (drain E W fuel s).
Proof.
  revert s; induction fuel as [|fuel IH]; intros s H; simpl; [exact H |].
  destruct (first_enabled E W (length (threads s)) s) eqn:Hf; [|exact H].
  apply first_enabled_Some in Hf as [i Hi]. eauto using step_inv.
Qed.

Lemma drain_done ok ko fuel s :
  inv ok ko s -> (0 < W)%nat -> (tally todo (threads s) <= fuel)%nat ->
  forall i p, threads (drain E W fuel s) !! i = Some p -> is_done p = true.
Proof.
  revert s; induction fuel as [|fuel IH]; intros s Hinv HW Hfuel; simpl.
  - apply todo_done. lia.
  - destruct (first_enabled E W (length (threads s)) s) as [s'|] eqn:Hf.
    + pose proof Hf as Hf'. apply first_enabled_Some in Hf' as [i Hi].
      apply IH; [eauto using step_inv | exact HW |].
      apply step_todo in Hi. lia.
    + eapply stuck_done; eauto using first_enabled_None.
Qed.

(** *** With outcomes that are a function of the call, the fate of a task
    is fixed by its calls *)

Lemma moves_fate i s p p' m : moves i s p p' m -> fate p' = fate p.
Proof.
  destruct 1; simpl; try reflexivity.
  - now rewrite H.
  - now rewrite H, H0.
  - now rewrite H, H0.
Qed.

Lemma step_fate i s s' :
  step E W i s = Some s' ->
  List.map fate (threads s') = List.map fate (threads s).
Proof.
  intros H. apply step_moves in H as (p & p' & m & Hi & Hm & ->). simpl.
  rewrite (moves_threads _ _ _ _ _ Hm).
  eauto using map_insert_same, moves_fate.
Qed.

Lemma exec_fate sched s :
  List.map fate (threads (exec E W sched s)) = List.map fate (threads s).
Proof.
  revert s; induction sched as [|i sched IH]; intros s; simpl; [reflexivity |].
  destruct (step E W i s) eqn:Hs; [|apply IH].
  rewrite IH. eauto using step_fate.
Qed.

Lemma drain_fate fuel s :
  List.map fate (threads (drain E W fuel s)) = List.map fate (threads s).
Proof.
  revert s; induction fuel as [|fuel IH]; intros s; simpl; [reflexivity |].
  destruct (first_enabled E W (length (threads s)) s) eqn:Hf; [|reflexivity].
  apply first_enabled_Some in Hf as [i Hi].
  rewrite IH. eauto using step_fate.
Qed.

Lemma all_done_fate (l : list pc) :
  (forall i p, l !! i = Some p -> is_done p = true) ->
  l = List.map Done (List.map fate l).
Proof.
  induction l as [|a l IH]; intros H; [reflexivity |]. simpl.
  pose proof (H 0%nat a eq_refl) as Ha. destruct a; try discriminate.
  simpl. f_equal. apply IH. intros i p Hp. exact (H (S i) p Hp).
Qed.

Lemma tally_credit_done (c : counter) (rs : list (result bool)) :
  tally (credit c) (List.map Done rs) = count_returned (return_value c) rs.
Proof.
  unfold tally, count_returned.
  induction rs as [|r rs IH]; [reflexivity |]. simpl. rewrite IH.
  destruct r as [[|]|e], c; reflexivity.
Qed.

Lemma tally_queued (f : pc -> nat) (tasks : list (list call)) :
  (forall cs, f (Queued cs) = 0%nat) ->
  tally f (List.map Queued tasks) = 0%nat.
Proof.
  intros Hf. unfold tally.
  induction tasks as [|cs tasks IH]; simpl; [reflexivity |].
  now rewrite Hf, IH.
Qed.

Lemma lookup_queued (tasks : list (list call)) i p :
  List.map Queued tasks !! i = Some p -> exists cs, p = Queued cs.
Proof.
  revert i; induction tasks as [|cs tasks IH]; intros [|i] H; simpl in *;
    try discriminate; eauto.
  injection H as <-. eauto.
Qed.

Lemma submit_all_inv tasks ok ko tr : inv ok ko (submit_all tasks ok ko tr).
Proof.
  constructor; simpl.
  - discriminate.
  - intros j p Hj Hp. apply lookup_queued in Hj as [cs ->]. discriminate.
  - intros j c v Hj. apply lookup_queued in Hj as [cs [=]].
  - rewrite tally_queued; [lia | reflexivity].
  - rewrite tally_queued; [lia | reflexivity].
Qed.

(** Whatever the interleaving, and the outcome of a call being a function
    of the call, the pool ends with every future resolved to what its task
    does on its own, each counter holding one increment
    per task that returned the matching value, and the lock free. *)
Theorem run_spec sched tasks ok ko tr :
  (0 < W)%nat ->
  let p := run E W sched tasks ok ko tr in
  threads p = List.map Done (List.map (alone E) tasks)
  /\ succeeded p = (ok + count_returned true (List.map (alone E) tasks))%nat
  /\ failed p = (ko + count_returned false (List.map (alone E) tasks))%nat.
Proof.
  intros HW p.
  set (s0 := submit_all tasks ok ko tr).
  assert (Hinv : inv ok ko p).
  { apply drain_inv, exec_inv, submit_all_inv. }
  assert (Hdone : forall i q, threads p !! i = Some q -> is_done q = true).
  { eapply drain_done; [apply exec_inv, submit_all_inv | exact HW | ].
    apply Nat.le_refl. }
  assert (Hfate : List.map fate (threads p) = List.map (alone E) tasks).
  { unfold p, run, join. rewrite drain_fate, exec_fate. simpl.
    rewrite List.map_map. reflexivity. }
  assert (Hth : threads p = List.map Done (List.map (alone E) tasks)).
  { rewrite <- Hfate. now apply all_done_fate. }
  split; [exact Hth |].
  destruct Hinv as [_ _ _ Hs Hf].
  rewrite Hs, Hf, Hth, !tally_credit_done. split; reflexivity.
Qed.

(** *** Schedules cover every execution *)

Lemma reach_exec s s' :
  Pool.reach E W s s' -> exists sched, exec E W sched s = s'.
Proof.
  induction 1 as [s|s i s' s'' Hstep _ [sched IH]].
  - now exists [].
  - exists (i :: sched). simpl. now rewrite Hstep.
Qed.

Lemma done_stuck n s :
  (forall i p, threads s !! i = Some p -> is_done p = true) ->
  first_enabled E W n s = None.
Proof.
  intros Hdone. induction n as [|n IH]; simpl; [reflexivity |].
  rewrite IH. unfold step.
  destruct (threads s !! n) as [p|] eqn:Hp; [|reflexivity].
  specialize (Hdone n p Hp). destruct p; try discriminate. reflexivity.
Qed.

Lemma done_join s :
  (forall i p, threads s !! i = Some p -> is_done p = true) -> join E W s = s.
Proof.
  intros Hdone. unfold join.
  destruct (list_sum (List.map todo (threads s))) as [|fuel]; simpl;
    [reflexivity |].
  now rewrite done_stuck.
Qed.

(** Every execution of the pool that ends with all futures resolved is
    the run of some schedule. *)
Lemma execution_is_run tasks ok ko tr s :
  Pool.reach E W (submit_all tasks ok ko tr) s ->
  (forall i p, threads s !! i = Some p -> is_done p = true) ->
  exists sched, run E W sched tasks ok ko tr = s.
Proof.
  intros Hreach Hdone. destruct (reach_exec _ _ Hreach) as [sched Hs].
  exists sched. unfold run. rewrite Hs. now apply done_join.
Qed.

(** *** The calls a pool makes *)

Section Trace.
Variable P : call -> Prop.
Variable tr : list call.

Local Abbreviation traced := (Pool.traced P tr).

Lemma moves_traced i s p p' m :
  traced s -> threads s !! i = Some p -> moves i s p p' m ->
  traced (set_thread i p' m).
Proof.
  intros [(rest & Ht & Hr) Hp] Hi Hm.
  pose proof (Hp i p Hi) as Hpi.
  assert (Hp' : Forall P (pending p')).
  { destruct Hm; simpl in *; auto using Forall_nil;
      eauto using Forall_inv_tail. }
  assert (Htr : exists rest', trace m = tr ++ rest' /\ Forall P rest').
  { destruct Hm; simpl; eauto.
    1-3: exists (rest ++ [c]); rewrite Ht, app_assoc; split;
      [reflexivity | apply Forall_app; split; [exact Hr |]];
      apply Forall_inv in Hpi; auto.
    destruct c; simpl; eauto. }
  split; [exact Htr |]. simpl. rewrite (moves_threads _ _ _ _ _ Hm).
  intros j q Hj. apply insert_cases in Hj as [[_ ->]|[_ Hj]]; eauto.
Qed.

Lemma step_traced i s s' :
  traced s -> step E W i s = Some s' -> traced s'.
Proof.
  intros Ht H. apply step_moves in H as (p & p' & m & Hi & Hm & ->).
  eauto using moves_traced.
Qed.

Lemma exec_traced sched s : traced s -> traced (exec E W sched s).
Proof.
  revert s; induction sched as [|i sched IH]; intros s H; simpl;
    [exact H |].
  destruct (step E W i s) eqn:Hs; eauto using step_traced.
Qed.

Lemma drain_traced fuel s : traced s -> traced (drain E W fuel s).
Proof.
  revert s; induction fuel as [|fuel IH]; intros s H; simpl; [exact H |].
  destruct (first_enabled E W (length (threads s)) s) eqn:Hf; [|exact H].
  apply first_enabled_Some in Hf as [i Hi]. eauto using step_traced.
Qed.

(** The pool only adds calls to the trace, and only calls of its
    tasks. *)
Lemma run_trace sched tasks ok ko :
  Forall (Forall P) tasks ->
  exists rest,
    trace (run E W sched tasks ok ko tr) = tr ++ rest /\ Forall P rest.
Proof.
  intros Htasks.
  assert (H0 : traced (submit_all tasks ok ko tr)).
  { split; simpl.
    - exists []. now rewrite app_nil_r.
    - clear -Htasks. induction Htasks as [|cs tasks Hcs _ IH];
        intros [|i] p Hp; simpl in *; try discriminate.
      + now injection Hp as <-.
      + eauto. }
  apply (exec_traced sched) in H0.
  exact (proj1 (drain_traced _ _ H0)).
Qed.
End Trace.
End PoolFacts.

(** ** The path parser *)

Section ParserClaims.
Import PyStr Spec.
Local Open Scope string_scope.

(** C2, as amended. Path parsing never fails: for every raw address the
    call returns the pair (bucket portion, normalized remainder), and the
    bucket is the empty string when the bucket portion is empty. *)
Theorem parse_s3_path_total (raw : string) :
  Parser.call_parse_s3_path raw
  = Returned (bucket_portion raw, normalize (after_slash (strip_scheme raw))).
Proof. unfold Parser.call_parse_s3_path. now rewrite parse_s3_path_spec. Qed.

(** C2, counterexample. The address [s3:///data] has an empty bucket
    portion and is parsed without any failure, into the bucket [""] and the
    prefix ["data/"]: failing is not equivalent to an empty bucket. *)
Lemma parse_s3_path_accepts_empty_bucket :
  Parser.call_parse_s3_path "s3:///data" = Returned ("", "data/")
  /\ ~ ((exists e, Parser.call_parse_s3_path "s3:///data" = Raised e)
        <-> bucket_portion "s3:///data" = "").
Proof.
  split; [reflexivity |].
  intros [_ H]. destruct (H eq_refl) as [e He]. discriminate He.
Qed.

(** C7. Parsing is idempotent: the address rebuilt from a parsed pair
    parses to the same pair. *)
Theorem parse_s3_path_idempotent (raw : string) :
  Parser._parse_s3_path
    (address (fst (Parser._parse_s3_path raw)) (snd (Parser._parse_s3_path raw)))
  = Parser._parse_s3_path raw.
Proof.
  rewrite (parse_s3_path_spec raw). cbn [fst snd].
  rewrite parse_s3_path_spec. unfold bucket_portion.
  rewrite strip_scheme_address.
  destruct (cut_rebuilt (strip_scheme raw)
              (normalize (after_slash (strip_scheme raw)))) as [-> ->].
  now rewrite normalize_fixed by apply normalize_normalized.
Qed.

Lemma parse_s3_path_normalized (raw : string) :
  normalized (snd (Parser._parse_s3_path raw)).
Proof. rewrite parse_s3_path_spec. apply normalize_normalized. Qed.

(** C6. For a key that starts with the prefix, the relative path of both
    planners is the rest of the key after the prefix, and the prefix
    followed by the relative path is the key again. *)
Theorem relative_path_rejoin (prefix key : string) :
  startswith key prefix = true ->
  Download.relative_path prefix key = slice_from (String.length prefix) key
  /\ Copy.relative_path prefix key = slice_from (String.length prefix) key
  /\ (forall rest, key = prefix ++ rest ->
      Download.relative_path prefix key = rest
      /\ Copy.relative_path prefix key = rest)
  /\ prefix ++ Download.relative_path prefix key = key
  /\ prefix ++ Copy.relative_path prefix key = key.
Proof.
  intros H.
  assert (Hd : Download.relative_path prefix key
               = slice_from (String.length prefix) key).
  { unfold Download.relative_path. destruct prefix; reflexivity. }
  assert (Hc : Copy.relative_path prefix key
               = slice_from (String.length prefix) key).
  { unfold Copy.relative_path. destruct prefix; reflexivity. }
  rewrite Hd, Hc. repeat split.
  - subst key. apply slice_from_app.
  - subst key. apply slice_from_app.
  - symmetry. now apply startswith_split.
  - symmetry. now apply startswith_split.
Qed.

Lemma relative_path_rejoin_witness :
  startswith "a/sub/f1.txt" "a/" = true
  /\ Download.relative_path "a/" "a/sub/f1.txt" = "sub/f1.txt"
  /\ "a/" ++ Copy.relative_path "a/" "a/sub/f1.txt" = "a/sub/f1.txt".
Proof.
  assert (H : startswith "a/sub/f1.txt" "a/" = true) by reflexivity.
  split; [exact H |].
  destruct (relative_path_rejoin "a/" "a/sub/f1.txt" H)
    as (_ & _ & Hrest & _ & Hc).
  split; [exact (proj1 (Hrest "sub/f1.txt" eq_refl)) | exact Hc].
Defined.
End ParserClaims.

(** ** The summary *)

Section SummaryClaims.
Import Spec.

Lemma percentage_exact (part total : nat) :
  total <> 0%nat ->
  (percentage part total * inject_Z (Z.of_nat total)
   == inject_Z (Z.of_nat part) * 100)%Q.
Proof.
  intros H. unfold percentage.
  assert (Hz : ~ (inject_Z (Z.of_nat total) == 0)%Q).
  { unfold Qeq, inject_Z. simpl. lia. }
  field. exact Hz.
Qed.

(** C8. In the summary of either mode the rate is "No files processed"
    exactly when the total is 0, and otherwise it is the rational number
    succeeded / total * 100. *)
Theorem success_rate_reported (d : Download.S3DirectoryDownloader)
    (c : Copy.S3FolderCopier) :
  rate_ok (Download.print_summary d)
  /\ sum_total (Download.print_summary d) = Download.total_files d
  /\ sum_succeeded (Download.print_summary d) = Download.downloaded_files d
  /\ rate_ok (Copy.print_summary c)
  /\ sum_total (Copy.print_summary c) = Copy.total_files c
  /\ sum_succeeded (Copy.print_summary c) = Copy.copied_files c.
Proof.
  unfold rate_ok, Download.print_summary, Copy.print_summary; simpl.
  destruct (Nat.ltb_spec 0 (Download.total_files d)) as [Hd|Hd],
           (Nat.ltb_spec 0 (Copy.total_files c)) as [Hc|Hc];
    repeat split; try congruence; try discriminate; try lia;
    intros; try (apply percentage_exact; lia).
Qed.
End SummaryClaims.

(** ** The planners and the runs *)

Section PlannerFacts.
Import PyStr Spec.
Local Open Scope string_scope.

(** The download planner counts every listed key and submits the keys
    that are no markers and have a relative path. *)
Lemma download_each_object b p d keys st :
  Download.each_object b p d keys st
  = ((fst st + List.length keys)%nat,
     (snd st ++ List.map (download_task b p d)
                  (List.filter (download_keeps p) keys))%list).
Proof.
  revert st; induction keys as [|k keys IH]; intros [n fs]; simpl.
  - now rewrite Nat.add_0_r, app_nil_r.
  - unfold download_keeps at 1, marker.
    destruct (String.eqb (Download.relative_path p k) "" || endswith k "/");
      rewrite IH; simpl.
    + f_equal. lia.
    + rewrite <- app_assoc. f_equal. lia.
Qed.

Lemma download_each_page b p d ps st :
  Download.each_page b p d ps st
  = ((fst st + List.length (listed ps))%nat,
     (snd st ++ List.map (download_task b p d)
                  (List.filter (download_keeps p) (listed ps)))%list).
Proof.
  revert st; induction ps as [|[contents|] ps IH]; intros [n fs]; simpl.
  - now rewrite Nat.add_0_r, app_nil_r.
  - rewrite IH, download_each_object. simpl.
    rewrite length_app, List.filter_app, List.map_app, <- app_assoc.
    f_equal. lia.
  - apply IH.
Qed.

Lemma copy_count_objects keys n :
  Copy.count_objects keys n
  = (n + List.length (List.filter copy_keeps keys))%nat.
Proof.
  revert n; induction keys as [|k keys IH]; intros n; simpl; [lia |].
  unfold copy_keeps at 1, marker. destruct (endswith k "/"); rewrite IH;
    simpl; lia.
Qed.

Lemma copy_count_pages ps n :
  Copy.count_pages ps n
  = (n + List.length (List.filter copy_keeps (listed ps)))%nat.
Proof.
  revert n; induction ps as [|[contents|] ps IH]; intros n; simpl; [lia | |].
  - rewrite IH, copy_count_objects, List.filter_app, length_app. lia.
  - apply IH.
Qed.

Lemma copy_each_object b sp dp keys fs :
  Copy.each_object b sp dp keys fs
  = (fs ++ List.map (copy_task b sp dp) (List.filter copy_keeps keys))%list.
Proof.
  revert fs; induction keys as [|k keys IH]; intros fs; simpl.
  - now rewrite app_nil_r.
  - unfold copy_keeps at 1, marker. destruct (endswith k "/"); rewrite IH;
      simpl; [reflexivity | now rewrite <- app_assoc].
Qed.

Lemma copy_each_page b sp dp ps fs :
  Copy.each_page b sp dp ps fs
  = (fs ++ List.map (copy_task b sp dp)
             (List.filter copy_keeps (listed ps)))%list.
Proof.
  revert fs; induction ps as [|[contents|] ps IH]; intros fs; simpl.
  - now rewrite app_nil_r.
  - rewrite IH, copy_each_object, List.filter_app, List.map_app.
    now rewrite <- app_assoc.
  - apply IH.
Qed.
End PlannerFacts.

Section RunFacts.
Import PyStr Spec.
Local Open Scope string_scope.
Variable E : env.

Lemma executor_started (max_workers : Z) :
  (0 < max_workers)%Z ->
  exists W, ThreadPoolExecutor max_workers = Returned W /\ (0 < W)%nat.
Proof.
  intros H. unfold ThreadPoolExecutor.
  destruct (Z.leb_spec max_workers 0); [lia |].
  eexists. split; [reflexivity | lia].
Qed.

Lemma executor_refused (max_workers : Z) :
  (max_workers <= 0)%Z ->
  exists e, ThreadPoolExecutor max_workers = Raised e.
Proof.
  intros H. unfold ThreadPoolExecutor.
  destruct (Z.leb_spec max_workers 0); [eauto | lia].
Qed.

Lemma download_tasks_worker_calls b p d keys :
  Forall (Forall worker_call)
    (List.map Download.download_file
       (List.map (download_task b p d)
          (List.filter (download_keeps p) keys))).
Proof.
  induction keys as [|k keys IH]; simpl; [constructor |].
  destruct (download_keeps p k) eqn:Hk; [|exact IH].
  simpl. constructor; [|exact IH].
  unfold download_keeps in Hk. apply negb_true_iff, orb_false_elim in Hk.
  repeat constructor. simpl. exact (proj2 Hk).
Qed.

Lemma download_tasks_no_marker b p d keys :
  Forall (fun t => marker (Download.key t) = false
                   /\ t = download_task b p d (Download.key t))
    (List.map (download_task b p d) (List.filter (download_keeps p) keys)).
Proof.
  induction keys as [|k keys IH]; simpl; [constructor |].
  destruct (download_keeps p k) eqn:Hk; [|exact IH].
  simpl. constructor; [|exact IH].
  unfold download_keeps in Hk. apply negb_true_iff, orb_false_elim in Hk.
  split; [exact (proj2 Hk) | reflexivity].
Qed.

(** A download that gets as far as the pool. *)
Lemma download_directory_started sched self0 s3_path local_directory
    max_workers b p :
  Parser._parse_s3_path s3_path = (b, p) ->
  run_call E (Makedirs local_directory) = None ->
  (0 < max_workers)%Z ->
  let r := Download.download_directory E sched self0 s3_path local_directory
             max_workers in
  let ls := paginate E 0 b p in
  let tasks := List.map (download_task b p local_directory)
                 (List.filter (download_keeps p) (listed (pages ls))) in
  let rs := List.map (fun t => Pool.alone E (Download.download_file t)) tasks in
  Download.submitted r = tasks
  /\ Download.futures r = List.map Pool.Done rs
  /\ Download.total_files (Download.self r)
     = (Download.total_files self0 + List.length (listed (pages ls)))%nat
  /\ Download.downloaded_files (Download.self r)
     = (Download.downloaded_files self0 + Pool.count_returned true rs)%nat
  /\ Download.download_errors (Download.self r)
     = (Download.download_errors self0 + Pool.count_returned false rs)%nat
  /\ Download.outcome r
     = match broken ls with
       | Some e => Raised e
       | None => Pool.results (List.map Pool.Done rs)
       end
  /\ exists rest,
       Download.calls r
       = ([Makedirs local_directory; Paginate b p] ++ rest)%list
       /\ Forall worker_call rest.
Proof.
  intros Hparse Hmk HW r ls tasks rs.
  destruct (executor_started _ HW) as (W & HWe & HWpos).
  unfold r, Download.download_directory, Download._parse_s3_path.
  rewrite Hparse, Hmk, HWe, download_each_page. cbn [fst snd app].
  fold ls. fold tasks.
  destruct (run_spec E W sched (List.map Download.download_file tasks)
              (Download.downloaded_files self0)
              (Download.download_errors self0)
              [Makedirs local_directory; Paginate b p] HWpos)
    as (Hth & Hok & Hko).
  assert (Hrs : List.map (Pool.alone E)
                  (List.map Download.download_file tasks) = rs)
    by apply List.map_map.
  rewrite Hrs in Hth, Hok, Hko.
  cbn [Download.submitted Download.futures Download.self Download.calls
       Download.outcome Download.total_files Download.downloaded_files
       Download.download_errors].
  rewrite Hth, Hok, Hko.
  repeat (split; [reflexivity |]).
  apply run_trace. apply download_tasks_worker_calls.
Qed.

(** A download that stops before the pool. *)
Lemma download_directory_stopped sched self0 s3_path local_directory
    max_workers :
  run_call E (Makedirs local_directory) <> None \/ (max_workers <= 0)%Z ->
  exists e,
    Download.download_directory E sched self0 s3_path local_directory
      max_workers
    = {| Download.self := self0; Download.submitted := [];
         Download.futures := [];
         Download.calls := [Makedirs local_directory];
         Download.outcome := Raised e |}.
Proof.
  intros H. unfold Download.download_directory.
  destruct (Download._parse_s3_path s3_path) as [b p].
  destruct (run_call E (Makedirs local_directory)) as [e|]; [eauto |].
  destruct H as [H|H]; [congruence |].
  destruct (executor_refused _ H) as [e ->]. eauto.
Qed.

(** What holds of a download however far it gets. *)
Lemma download_directory_always sched self0 s3_path local_directory
    max_workers :
  let r := Download.download_directory E sched self0 s3_path local_directory
             max_workers in
  let rs := List.map (fun t => Pool.alone E (Download.download_file t))
              (Download.submitted r) in
  Download.futures r = List.map Pool.Done rs
  /\ Download.downloaded_files (Download.self r)
     = (Download.downloaded_files self0 + Pool.count_returned true rs)%nat
  /\ Download.download_errors (Download.self r)
     = (Download.download_errors self0 + Pool.count_returned false rs)%nat
  /\ Forall (fun t => marker (Download.key t) = false
                      /\ t = download_task (fst (Parser._parse_s3_path s3_path))
                               (snd (Parser._parse_s3_path s3_path))
                               local_directory (Download.key t))
       (Download.submitted r)
  /\ (Download.outcome r = Returned tt ->
      Pool.results (Download.futures r) = Returned tt)
  /\ exists head rest,
       Download.calls r = (head ++ rest)%list
       /\ Forall (fun c => c = Makedirs local_directory
                           \/ c = Paginate (fst (Parser._parse_s3_path s3_path))
                                    (snd (Parser._parse_s3_path s3_path))) head
       /\ Forall worker_call rest.
Proof.
  intros r rs.
  destruct (Parser._parse_s3_path s3_path) as [b p] eqn:Hparse.
  destruct (run_call E (Makedirs local_directory)) as [e|] eqn:Hmk;
    [|destruct (Z.leb_spec max_workers 0) as [HW|HW]].
  3: {
    destruct (download_directory_started sched self0 s3_path local_directory
                max_workers b p Hparse Hmk HW)
      as (Hsub & Hfut & _ & Hok & Hko & Hout & rest & Hcalls & Hrest).
    fold r in Hsub, Hfut, Hok, Hko, Hout, Hcalls.
    unfold rs. rewrite Hsub.
    split; [exact Hfut |]. split; [exact Hok |]. split; [exact Hko |].
    split; [apply download_tasks_no_marker |]. split.
    - rewrite Hout, Hfut. now destruct (broken (paginate E 0 b p)).
    - exists [Makedirs local_directory; Paginate b p], rest.
      split; [exact Hcalls |]. split; [|exact Hrest].
      constructor; [now left | constructor; [now right | constructor]]. }
  all: destruct (download_directory_stopped sched self0 s3_path
                   local_directory max_workers) as [e' He'];
    [first [left; congruence | right; lia] |].
  all: unfold rs, r; rewrite He'; cbn.
  all: split; [reflexivity |]; split; [lia |]; split; [lia |].
  all: split; [constructor |]; split; [discriminate |].
  all: exists [Makedirs local_directory], []; repeat constructor.
Qed.

Lemma copy_tasks_worker_calls b sp dp keys :
  Forall (Forall worker_call)
    (List.map Copy.copy_object
       (List.map (copy_task b sp dp) (List.filter copy_keeps keys))).
Proof.
  induction keys as [|k keys IH]; simpl; [constructor |].
  destruct (copy_keeps k) eqn:Hk; [|exact IH].
  simpl. constructor; [|exact IH].
  unfold copy_keeps in Hk. apply negb_true_iff in Hk.
  repeat constructor. exact Hk.
Qed.

Lemma copy_tasks_no_marker b sp dp keys :
  Forall (fun t => marker (Copy.source_key t) = false
                   /\ t = copy_task b sp dp (Copy.source_key t))
    (List.map (copy_task b sp dp) (List.filter copy_keeps keys)).
Proof.
  induction keys as [|k keys IH]; simpl; [constructor |].
  destruct (copy_keeps k) eqn:Hk; [|exact IH].
  simpl. constructor; [|exact IH].
  unfold copy_keeps in Hk. apply negb_true_iff in Hk.
  split; [exact Hk | reflexivity].
Qed.

(** A copy between two buckets stops at once. *)
Lemma copy_folder_cross_bucket sched self0 source dest max_workers :
  fst (Parser._parse_s3_path source) <> fst (Parser._parse_s3_path dest) ->
  Copy.copy_folder E sched self0 source dest max_workers
  = Copy.stopped self0 []
      (Raised (ValueError
         "Source and destination buckets must be the same for this script")).
Proof.
  intros H. unfold Copy.copy_folder, Copy._parse_s3_path.
  destruct (Parser._parse_s3_path source) as [sb sp].
  destruct (Parser._parse_s3_path dest) as [db dp]. simpl in H.
  apply String.eqb_neq in H. now rewrite H.
Qed.

(** A copy that gets as far as the pool. *)
Lemma copy_folder_started sched self0 source dest max_workers sb sp dp :
  Parser._parse_s3_path source = (sb, sp) ->
  Parser._parse_s3_path dest = (sb, dp) ->
  let first := paginate E 0 sb sp in
  let second := paginate E 1 sb sp in
  let total := (Copy.total_files self0
                + List.length (List.filter copy_keeps (listed (pages first))))%nat in
  broken first = None -> total <> 0%nat -> (0 < max_workers)%Z ->
  let r := Copy.copy_folder E sched self0 source dest max_workers in
  let tasks := List.map (copy_task sb sp dp)
                 (List.filter copy_keeps (listed (pages second))) in
  let rs := List.map (fun t => Pool.alone E (Copy.copy_object t)) tasks in
  Copy.submitted r = tasks
  /\ Copy.futures r = List.map Pool.Done rs
  /\ Copy.total_files (Copy.self r) = total
  /\ Copy.copied_files (Copy.self r)
     = (Copy.copied_files self0 + Pool.count_returned true rs)%nat
  /\ Copy.copy_errors (Copy.self r)
     = (Copy.copy_errors self0 + Pool.count_returned false rs)%nat
  /\ Copy.outcome r
     = match broken second with
       | Some e => Raised e
       | None => Pool.results (List.map Pool.Done rs)
       end
  /\ exists rest,
       Copy.calls r = ([Paginate sb sp; Paginate sb sp] ++ rest)%list
       /\ Forall worker_call rest.
Proof.
  intros Hs Hd first second total Hbr Htot HW r tasks rs.
  destruct (executor_started _ HW) as (W & HWe & HWpos).
  unfold r, Copy.copy_folder, Copy._parse_s3_path.
  rewrite Hs, Hd, String.eqb_refl. cbn [negb].
  fold first. rewrite Hbr, copy_count_pages. fold total.
  apply Nat.eqb_neq in Htot. rewrite Htot, HWe.
  rewrite copy_each_page. cbn [app]. fold second. fold tasks.
  destruct (run_spec E W sched (List.map Copy.copy_object tasks)
              (Copy.copied_files self0) (Copy.copy_errors self0)
              [Paginate sb sp; Paginate sb sp] HWpos)
    as (Hth & Hok & Hko).
  assert (Hrs : List.map (Pool.alone E) (List.map Copy.copy_object tasks) = rs)
    by apply List.map_map.
  rewrite Hrs in Hth, Hok, Hko.
  cbn [Copy.submitted Copy.futures Copy.self Copy.calls Copy.outcome
       Copy.total_files Copy.copied_files Copy.copy_errors].
  rewrite Hth, Hok, Hko.
  repeat (split; [reflexivity |]).
  apply run_trace. apply copy_tasks_worker_calls.
Qed.

(** A copy within one bucket that stops before the pool: the listing
    failed, it counted no file, or the executor refused the number of
    workers. *)
Lemma copy_folder_stopped sched self0 source dest max_workers sb sp dp :
  Parser._parse_s3_path source = (sb, sp) ->
  Parser._parse_s3_path dest = (sb, dp) ->
  let first := paginate E 0 sb sp in
  let total := (Copy.total_files self0
                + List.length (List.filter copy_keeps (listed (pages first))))%nat in
  broken first <> None \/ total = 0%nat \/ (max_workers <= 0)%Z ->
  exists res,
    Copy.copy_folder E sched self0 source dest max_workers
    = Copy.stopped
        {| Copy.total_files := total;
           Copy.copied_files := Copy.copied_files self0;
           Copy.copy_errors := Copy.copy_errors self0 |}
        [Paginate sb sp] res
    /\ (res = Returned tt <-> broken first = None /\ total = 0%nat).
Proof.
  intros Hs Hd first total H.
  unfold Copy.copy_folder, Copy._parse_s3_path.
  rewrite Hs, Hd, String.eqb_refl. cbn [negb].
  fold first. rewrite copy_count_pages. fold total.
  destruct (broken first) as [e|] eqn:Hbr.
  { eexists. split; [reflexivity |]. split; [discriminate | intros [[=] _]]. }
  destruct (Nat.eqb_spec total 0) as [H0|H0].
  { eexists. split; [reflexivity |]. now split. }
  destruct H as [H|[H|H]]; [congruence | congruence |].
  destruct (executor_refused _ H) as [e ->].
  eexists. split; [reflexivity |]. split; [discriminate | intros [_ ?]; lia].
Qed.

(** What holds of a copy however far it gets. *)
Lemma copy_folder_always sched self0 source dest max_workers :
  let r := Copy.copy_folder E sched self0 source dest max_workers in
  let rs := List.map (fun t => Pool.alone E (Copy.copy_object t))
              (Copy.submitted r) in
  Copy.futures r = List.map Pool.Done rs
  /\ Copy.copied_files (Copy.self r)
     = (Copy.copied_files self0 + Pool.count_returned true rs)%nat
  /\ Copy.copy_errors (Copy.self r)
     = (Copy.copy_errors self0 + Pool.count_returned false rs)%nat
  /\ Forall (fun t => marker (Copy.source_key t) = false
                      /\ t = copy_task (fst (Parser._parse_s3_path source))
                               (snd (Parser._parse_s3_path source))
                               (snd (Parser._parse_s3_path dest))
                               (Copy.source_key t))
       (Copy.submitted r)
  /\ (Copy.outcome r = Returned tt ->
      Pool.results (Copy.futures r) = Returned tt)
  /\ exists head rest,
       Copy.calls r = (head ++ rest)%list
       /\ Forall (fun c => c = Paginate (fst (Parser._parse_s3_path source))
                               (snd (Parser._parse_s3_path source))) head
       /\ Forall worker_call rest.
Proof.
  intros r rs.
  destruct (Parser._parse_s3_path source) as [sb sp] eqn:Hs.
  destruct (Parser._parse_s3_path dest) as [db dp] eqn:Hd.
  destruct (String.eqb_spec sb db) as [<-|Hne].
  - set (first := paginate E 0 sb sp).
    set (total := (Copy.total_files self0
           + List.length (List.filter copy_keeps (listed (pages first))))%nat).
    destruct (broken first) as [e|] eqn:Hbr;
      [|destruct (Nat.eq_dec total 0) as [H0|H0];
        [|destruct (Z.leb_spec max_workers 0) as [HW|HW]]].
    4: {
      destruct (copy_folder_started sched self0 source dest max_workers
                  sb sp dp Hs Hd Hbr H0 HW)
        as (Hsub & Hfut & _ & Hok & Hko & Hout & rest & Hcalls & Hrest).
      fold r in Hsub, Hfut, Hok, Hko, Hout, Hcalls.
      unfold rs. rewrite Hsub.
      split; [exact Hfut |]. split; [exact Hok |]. split; [exact Hko |].
      split; [apply copy_tasks_no_marker |]. split.
      - rewrite Hout, Hfut. now destruct (broken (paginate E 1 sb sp)).
      - exists [Paginate sb sp; Paginate sb sp], rest.
        split; [exact Hcalls |]. split; [|exact Hrest].
        repeat constructor. }
    all: destruct (copy_folder_stopped sched self0 source dest max_workers
                     sb sp dp Hs Hd) as (res & Hr & _);
      [fold first; fold total;
       first [left; congruence | right; left; assumption | right; right; lia] |].
    all: unfold rs, r; rewrite Hr; cbn.
    all: split; [reflexivity |]; split; [lia |]; split; [lia |].
    all: split; [constructor |]; split; [reflexivity |].
    all: exists [Paginate sb sp], []; repeat constructor.
  - unfold rs, r. rewrite copy_folder_cross_bucket by (rewrite Hs, Hd; exact Hne).
    cbn. split; [reflexivity |]; split; [lia |]; split; [lia |].
    split; [constructor |]; split; [discriminate |].
    exists [], []. repeat constructor.
Qed.
End RunFacts.

(** ** Properties of whole runs *)

Section RunClaims.
Import PyStr Spec.
Local Open Scope string_scope.

Lemma Forall_worker_no_marker (l : list call) :
  Forall worker_call l -> Forall moves_no_marker l.
Proof.
  apply List.Forall_impl. intros c Hc. destruct c; try exact Hc. destruct Hc.
Qed.

Lemma Forall_worker_lists_under b p (l : list call) :
  Forall worker_call l -> Forall (lists_under b p) l.
Proof.
  apply List.Forall_impl. intros c Hc. destruct c; try exact I. destruct Hc.
Qed.

(** C10. In both modes a listed key that ends with the separator is
    passed over by the planning loops whatever its relative path (the
    download loop only counts it, the two copy loops do nothing), so that
    no submitted unit has a source key that ends with the separator and no
    transfer call is ever made for such a key. *)
Theorem markers_never_dispatched (E : env) (sched : list nat)
    (d0 : Download.S3DirectoryDownloader) (c0 : Copy.S3FolderCopier)
    (s3_path local_directory source dest : string) (max_workers : Z) :
  let d := Download.download_directory E sched d0 s3_path local_directory
             max_workers in
  let c := Copy.copy_folder E sched c0 source dest max_workers in
  (forall b p dir key rest st,
      endswith key "/" = true ->
      Download.each_object b p dir (key :: rest) st
      = Download.each_object b p dir rest ((fst st + 1)%nat, snd st))
  /\ (forall key rest n,
      endswith key "/" = true ->
      Copy.count_objects (key :: rest) n = Copy.count_objects rest n)
  /\ (forall b sp dp key rest fs,
      endswith key "/" = true ->
      Copy.each_object b sp dp (key :: rest) fs
      = Copy.each_object b sp dp rest fs)
  /\ Forall (fun t => endswith (Download.key t) "/" = false)
       (Download.submitted d)
  /\ Forall (fun t => endswith (Copy.source_key t) "/" = false)
       (Copy.submitted c)
  /\ Forall moves_no_marker (Download.calls d)
  /\ Forall moves_no_marker (Copy.calls c).
Proof.
  intros d c.
  split; [|split; [|split]].
  - intros b p dir key rest st Hkey. cbn [Download.each_object].
    now rewrite Hkey, orb_true_r.
  - intros key rest n Hkey. cbn [Copy.count_objects]. now rewrite Hkey.
  - intros b sp dp key rest fs Hkey. cbn [Copy.each_object].
    now rewrite Hkey.
  - destruct (download_directory_always E sched d0 s3_path local_directory
                max_workers)
      as (_ & _ & _ & Hd & _ & hd & rd & Hdc & Hhd & Hrd).
    destruct (copy_folder_always E sched c0 source dest max_workers)
      as (_ & _ & _ & Hc & _ & hc & rc & Hcc & Hhc & Hrc).
    fold d in Hd, Hdc. fold c in Hc, Hcc.
    split; [|split; [|split]].
    + revert Hd. apply List.Forall_impl. now intros t [Ht _].
    + revert Hc. apply List.Forall_impl. now intros t [Ht _].
    + rewrite Hdc. apply Forall_app. split.
      * revert Hhd. apply List.Forall_impl. now intros x [->| ->].
      * now apply Forall_worker_no_marker.
    + rewrite Hcc. apply Forall_app. split.
      * revert Hhc. apply List.Forall_impl. now intros x ->.
      * now apply Forall_worker_no_marker.
Qed.

(** C9. The prefix that parsing returns is empty or ends with the
    separator, and it is this pair of bucket and prefix that every
    listing call of a run is made for and that every submitted unit was
    planned with. *)
Theorem parsed_prefix_invariant (E : env) (sched : list nat)
    (d0 : Download.S3DirectoryDownloader) (c0 : Copy.S3FolderCopier)
    (raw local_directory dest : string) (max_workers : Z) :
  let bucket := fst (Parser._parse_s3_path raw) in
  let prefix := snd (Parser._parse_s3_path raw) in
  let d := Download.download_directory E sched d0 raw local_directory
             max_workers in
  let c := Copy.copy_folder E sched c0 raw dest max_workers in
  (prefix = "" \/ endswith prefix "/" = true)
  /\ Forall (lists_under bucket prefix) (Download.calls d)
  /\ Forall (lists_under bucket prefix) (Copy.calls c)
  /\ Forall (fun t => Download.local_path t
                      = PosixPath.join local_directory
                          (Download.relative_path prefix (Download.key t)))
       (Download.submitted d)
  /\ Forall (fun t => Copy.dest_key t
                      = snd (Parser._parse_s3_path dest)
                        ++ Copy.relative_path prefix (Copy.source_key t))
       (Copy.submitted c).
Proof.
  intros bucket prefix d c.
  split; [exact (parse_s3_path_normalized raw) |].
  destruct (download_directory_always E sched d0 raw local_directory
              max_workers)
    as (_ & _ & _ & Hd & _ & hd & rd & Hdc & Hhd & Hrd).
  destruct (copy_folder_always E sched c0 raw dest max_workers)
    as (_ & _ & _ & Hc & _ & hc & rc & Hcc & Hhc & Hrc).
  fold d in Hd, Hdc. fold c in Hc, Hcc.
  fold bucket prefix in Hd, Hc, Hhd, Hhc.
  split; [|split; [|split]].
  - rewrite Hdc. apply Forall_app. split.
    + revert Hhd. apply List.Forall_impl. intros x [->| ->]; simpl; auto.
    + now apply Forall_worker_lists_under.
  - rewrite Hcc. apply Forall_app. split.
    + revert Hhc. apply List.Forall_impl. intros x ->; simpl; auto.
    + now apply Forall_worker_lists_under.
  - revert Hd. apply List.Forall_impl. intros t [_ Ht].
    rewrite Ht at 1. reflexivity.
  - revert Hc. apply List.Forall_impl. intros t [_ Ht].
    rewrite Ht at 1. reflexivity.
Qed.

(** C5. A copy whose source and destination buckets differ fails with the
    configuration error before anything else happens: no listing call and
    no transfer call is made, no unit is submitted, the three counters
    keep their initial value 0, no summary is printed and the process
    exits with status 1. *)
Theorem cross_bucket_copy_aborts (E : env) (sched : list nat)
    (source dest : string) (max_workers : Z) :
  fst (Parser._parse_s3_path source) <> fst (Parser._parse_s3_path dest) ->
  let x := Copy.main E sched source dest max_workers in
  Copy.outcome (Copy.final x)
  = Raised (ValueError
              "Source and destination buckets must be the same for this script")
  /\ Copy.calls (Copy.final x) = []
  /\ Copy.submitted (Copy.final x) = []
  /\ Copy.futures (Copy.final x) = []
  /\ Copy.self (Copy.final x) = Copy.new
  /\ Copy.printed x = None
  /\ Copy.exit_code x = 1%Z.
Proof.
  intros H x. unfold x, Copy.main.
  rewrite (copy_folder_cross_bucket E sched Copy.new source dest max_workers H).
  cbn. repeat split.
Qed.

Lemma cross_bucket_copy_aborts_witness :
  fst (Parser._parse_s3_path "s3://x/a") <> fst (Parser._parse_s3_path "s3://y/b")
  /\ Copy.exit_code
       (Copy.main (quiet [Some ["a/f1.txt"]]) [] "s3://x/a" "s3://y/b" 10)
     = 1%Z
  /\ Copy.calls
       (Copy.final
          (Copy.main (quiet [Some ["a/f1.txt"]]) [] "s3://x/a" "s3://y/b" 10))
     = [].
Proof.
  assert (H : fst (Parser._parse_s3_path "s3://x/a")
              <> fst (Parser._parse_s3_path "s3://y/b"))
    by (vm_compute; discriminate).
  split; [exact H |].
  destruct (cross_bucket_copy_aborts (quiet [Some ["a/f1.txt"]]) []
              "s3://x/a" "s3://y/b" 10 H)
    as (_ & Hcalls & _ & _ & _ & _ & Hexit).
  split; [exact Hexit | exact Hcalls].
Defined.

Lemma count_results (rs : list (result bool)) :
  (Pool.count_returned true rs + Pool.count_returned false rs
   + Pool.count_raised rs)%nat = List.length rs.
Proof.
  unfold Pool.count_returned, Pool.count_raised.
  induction rs as [|[[|]|e] rs IH]; simpl; lia.
Qed.

Lemma results_none_raised (rs : list (result bool)) :
  Pool.results (List.map Pool.Done rs) = Returned tt ->
  Pool.count_raised rs = 0%nat.
Proof.
  unfold Pool.count_raised.
  induction rs as [|[b|e] rs IH]; simpl; [reflexivity | exact IH | discriminate].
Qed.

(** X23. After the join, under every interleaving of the workers, every
    future is resolved and the succeeded counter has grown by the number
    of units that returned True, the failed counter by the number of units
    that returned False: a unit that returned has incremented exactly one
    counter exactly once, and a unit that raised has incremented none. The
    two counters therefore grow together by the number of submitted units
    less those that raised, and by the number of submitted units when the
    run returns. *)
Theorem counters_account_for_returned_units (E : env) (sched : list nat)
    (d0 : Download.S3DirectoryDownloader) (c0 : Copy.S3FolderCopier)
    (s3_path local_directory source dest : string) (max_workers : Z) :
  let d := Download.download_directory E sched d0 s3_path local_directory
             max_workers in
  let c := Copy.copy_folder E sched c0 source dest max_workers in
  (exists rs,
      Download.futures d = List.map Pool.Done rs
      /\ Download.downloaded_files (Download.self d)
         = (Download.downloaded_files d0 + Pool.count_returned true rs)%nat
      /\ Download.download_errors (Download.self d)
         = (Download.download_errors d0 + Pool.count_returned false rs)%nat
      /\ (Pool.count_returned true rs + Pool.count_returned false rs
          + Pool.count_raised rs)%nat = List.length (Download.submitted d)
      /\ match Download.outcome d with
         | Returned _ =>
             (Download.downloaded_files (Download.self d)
              + Download.download_errors (Download.self d))%nat
             = (Download.downloaded_files d0 + Download.download_errors d0
                + List.length (Download.submitted d))%nat
         | Raised _ => True
         end)
  /\ (exists rs,
      Copy.futures c = List.map Pool.Done rs
      /\ Copy.copied_files (Copy.self c)
         = (Copy.copied_files c0 + Pool.count_returned true rs)%nat
      /\ Copy.copy_errors (Copy.self c)
         = (Copy.copy_errors c0 + Pool.count_returned false rs)%nat
      /\ (Pool.count_returned true rs + Pool.count_returned false rs
          + Pool.count_raised rs)%nat = List.length (Copy.submitted c)
      /\ match Copy.outcome c with
         | Returned _ =>
             (Copy.copied_files (Copy.self c)
              + Copy.copy_errors (Copy.self c))%nat
             = (Copy.copied_files c0 + Copy.copy_errors c0
                + List.length (Copy.submitted c))%nat
         | Raised _ => True
         end).
Proof.
  intros d c. split.
  - destruct (download_directory_always E sched d0 s3_path local_directory
                max_workers) as (Hf & Hok & Hko & _ & Hout & _).
    fold d in Hf, Hok, Hko, Hout.
    set (rs := List.map (fun t => Pool.alone E (Download.download_file t))
                 (Download.submitted d)) in *.
    assert (Hlen : List.length rs = List.length (Download.submitted d))
      by apply List.length_map.
    exists rs. pose proof (count_results rs) as Hcount.
    split; [exact Hf |]. split; [exact Hok |]. split; [exact Hko |].
    split; [lia |].
    destruct (Download.outcome d) as [[]|e]; [|exact I].
    specialize (Hout eq_refl). rewrite Hf in Hout.
    apply results_none_raised in Hout. lia.
  - destruct (copy_folder_always E sched c0 source dest max_workers)
      as (Hf & Hok & Hko & _ & Hout & _).
    fold c in Hf, Hok, Hko, Hout.
    set (rs := List.map (fun t => Pool.alone E (Copy.copy_object t))
                 (Copy.submitted c)) in *.
    assert (Hlen : List.length rs = List.length (Copy.submitted c))
      by apply List.length_map.
    exists rs. pose proof (count_results rs) as Hcount.
    split; [exact Hf |]. split; [exact Hok |]. split; [exact Hko |].
    split; [lia |].
    destruct (Copy.outcome c) as [[]|e]; [|exact I].
    specialize (Hout eq_refl). rewrite Hf in Hout.
    apply results_none_raised in Hout. lia.
Qed.

(** C4, the code at the failing input. One object [a/sub/f.txt] is listed
    and the creation of its directory [/out/sub] fails with an [OSError]
    (the path exists as a file, say). [download_file] catches only
    [ClientError], so the unit ends without having incremented either
    counter: one unit is submitted, and after the join the two counters
    together are 0, not 1. *)
Lemma uncaught_unit_is_not_counted :
  let d := Download.download_directory
             (failing [Some ["a/sub/f.txt"]] makes_out_sub OSError) []
             Download.new "s3://bucket/a/" "/out" 10 in
  List.length (Download.submitted d) = 1%nat
  /\ Download.futures d = [Pool.Done (Raised OSError)]
  /\ (Download.downloaded_files (Download.self d)
      + Download.download_errors (Download.self d))%nat = 0%nat
  /\ (Download.downloaded_files (Download.self d)
      + Download.download_errors (Download.self d))%nat
     <> List.length (Download.submitted d).
Proof. vm_compute. repeat split. discriminate. Qed.

(** C3, the code at the failing input. The objects [a/f1.txt] and
    [a/sub/f2.txt] are listed and the creation of the directory [/out/sub]
    of the second one fails with an [OSError] (the path exists as a file,
    say). [download_file] catches only [ClientError], so the error is not
    turned into a failed outcome: the call raises instead of returning
    False, the future of the unit holds the exception, the failed counter
    stays at 0, the join raises the exception again and the process exits
    with status 1 without a summary. *)
Lemma directory_error_reaches_the_join :
  let x := Download.main
             (failing [Some ["a/f1.txt"; "a/sub/f2.txt"]] makes_out_sub OSError)
             [] "s3://bucket/a/" "/out" 10 in
  exists d,
    Download.final x = Some d
    /\ Download.futures d
       = [Pool.Done (Returned true); Pool.Done (Raised OSError)]
    /\ Download.download_errors (Download.self d) = 0%nat
    /\ Download.outcome d = Raised OSError
    /\ Download.printed x = None
    /\ Download.exit_code x = 1%Z.
Proof. vm_compute. eexists. repeat split. Qed.

(** C1, the scenario on the code. For the listing [a/f1.txt], [a/f2.txt],
    [a/sub/] under the prefix [a/] and the local root [/out], whatever
    the interleaving, exactly the two units f1.txt -> /out/f1.txt and
    f2.txt -> /out/f2.txt are submitted and both succeed, the key [a/sub/]
    gives none, and [total_files] is 3 when the run returns: the marker
    is counted before it is skipped. *)
Theorem download_scenario_counts_marker (sched : list nat) :
  let d := Download.download_directory (quiet scenario_listing) sched
             Download.new "s3://bucket/a/" "/out" 10 in
  Download.submitted d
  = [ {| Download.bucket_name := "bucket"; Download.key := "a/f1.txt";
         Download.local_path := "/out/f1.txt" |};
      {| Download.bucket_name := "bucket"; Download.key := "a/f2.txt";
         Download.local_path := "/out/f2.txt" |} ]
  /\ Download.outcome d = Returned tt
  /\ Download.downloaded_files (Download.self d) = 2%nat
  /\ Download.download_errors (Download.self d) = 0%nat
  /\ Download.total_files (Download.self d) = 3%nat
  /\ sum_rate (Download.print_summary (Download.self d))
     = Percent (percentage 2 3).
Proof.
  intros d.
  destruct (download_directory_started (quiet scenario_listing) sched
              Download.new "s3://bucket/a/" "/out" 10 "bucket" "a/"
              eq_refl eq_refl eq_refl)
    as (Hsub & _ & Htot & Hok & Hko & Hout & _).
  fold d in Hsub, Htot, Hok, Hko, Hout.
  unfold Download.print_summary.
  rewrite Hsub, Htot, Hok, Hko, Hout. repeat split.
Qed.
End RunClaims.

(** ** Further properties of the worker pool *)

Section PoolProperties.
Import Pool Notions.
Variable E : env.
Variable W : nat.

Lemma holders_at_most_one (l : list pc) :
  (forall i j p q, l !! i = Some p -> l !! j = Some q ->
                   holds p = true -> holds q = true -> i = j) ->
  (holders l <= 1)%nat.
Proof.
  unfold holders. induction l as [|a l IH]; intros H; simpl; [lia |].
  assert (Htl : forall i j p q, l !! i = Some p -> l !! j = Some q ->
                  holds p = true -> holds q = true -> i = j).
  { intros i j p q Hi Hj Hp Hq.
    specialize (H (S i) (S j) p q Hi Hj Hp Hq). lia. }
  destruct (holds a) eqn:Ha; [|auto].
  assert (Hnone : List.filter holds l = []).
  { clear IH Htl. 
    assert (Hno : forall j q, l !! j = Some q -> holds q = false).
    { intros j q Hj. destruct (holds q) eqn:Hq; [|reflexivity].
      specialize (H 0%nat (S j) a q eq_refl Hj Ha Hq). discriminate. }
    clear H. induction l as [|b l IHl]; [reflexivity |]. simpl.
    rewrite (Hno 0%nat b eq_refl). apply IHl.
    intros j q Hj. exact (Hno (S j) q Hj). }
  simpl. rewrite Hnone. simpl. lia.
Qed.

Lemma holders_none (l : list pc) :
  (forall j q, l !! j = Some q -> holds q = false) -> holders l = 0%nat.
Proof.
  unfold holders. induction l as [|b l IHl]; intros Hno; [reflexivity |].
  simpl. rewrite (Hno 0%nat b eq_refl). apply IHl.
  intros j q Hj. exact (Hno (S j) q Hj).
Qed.

(** X2. At every point of every execution of the pool at most one task is
    inside a [with self.lock] block, and the lock is held exactly when
    some task is. *)
Theorem lock_is_exclusive (sched : list nat) (tasks : list (list call))
    (ok ko : nat) (tr : list call) :
  let s := exec E W sched (submit_all tasks ok ko tr) in
  (holders (threads s) <= 1)%nat
  /\ match lock s with
     | Some i => exists p, threads s !! i = Some p /\ holds p = true
     | None => holders (threads s) = 0%nat
     end.
Proof.
  intros s.
  assert (Hinv : inv ok ko s) by apply exec_inv, submit_all_inv.
  destruct Hinv as [Hh He _ _ _]. split.
  - apply holders_at_most_one. intros i j p q Hi Hj Hp Hq.
    pose proof (He i p Hi Hp). pose proof (He j q Hj Hq). congruence.
  - destruct (lock s) as [i|] eqn:Hl; [now apply Hh |].
    apply holders_none. intros j q Hj. destruct (holds q) eqn:Hq; [|reflexivity].
    specialize (He j q Hj Hq). congruence.
Qed.

(** X3. With at least one worker the pool never deadlocks: at every point
    of every execution either some task can move, or every future is
    resolved to what its task does on its own. *)
Theorem pool_never_deadlocks (sched : list nat) (tasks : list (list call))
    (ok ko : nat) (tr : list call) :
  (0 < W)%nat ->
  let s := exec E W sched (submit_all tasks ok ko tr) in
  (exists i s', step E W i s = Some s')
  \/ threads s = List.map Done (List.map (alone E) tasks).
Proof.
  intros HW s.
  destruct (first_enabled E W (length (threads s)) s) as [s'|] eqn:Hf.
  - left. apply first_enabled_Some in Hf as [i Hi]. eauto.
  - right.
    assert (Hinv : inv ok ko s) by apply exec_inv, submit_all_inv.
    pose proof (stuck_done E W ok ko s Hinv HW (first_enabled_None E W _ _ Hf))
      as Hdone.
    rewrite (all_done_fate E _ Hdone). f_equal.
    unfold s. rewrite exec_fate. simpl. now rewrite List.map_map.
Qed.
End PoolProperties.

Section Ordering.
Import Pool Notions.
Variable E : env.
Variable W : nat.

Local Abbreviation orderly := (Notions.orderly E).

Lemma will_be_in_order_nil tr : will_be_in_order E tr [].
Proof. intros n c m Hn. discriminate. Qed.

Lemma will_be_in_order_later tr c cs :
  will_be_in_order E tr cs -> will_be_in_order E (tr ++ [c]) cs.
Proof.
  intros H n c' m Hn Hm. destruct (H n c' m Hn Hm) as [Hl|[Hr [j Hj]]].
  - now left.
  - right. split; [exact Hr |]. exists j. now apply lookup_app_l_Some.
Qed.

Lemma will_be_in_order_tail tr c cs :
  will_be_in_order E tr (c :: cs) -> run_call E c = None ->
  will_be_in_order E (tr ++ [c]) cs.
Proof.
  intros H Hc n c' m Hn Hm.
  destruct (H (S n) c' m Hn Hm) as [[[|j] [Hlt Hj]]|[Hr [j Hj]]].
  - simpl in Hj. injection Hj as ->. right. split; [exact Hc |].
    exists (length tr). apply list_lookup_middle. reflexivity.
  - left. exists j. split; [lia | exact Hj].
  - right. split; [exact Hr |]. exists j. now apply lookup_app_l_Some.
Qed.

Lemma in_order_snoc tr c cs :
  in_order E tr -> will_be_in_order E tr (c :: cs) -> in_order E (tr ++ [c]).
Proof.
  intros Htr Hcs n c' m Hn Hm.
  apply lookup_snoc_Some in Hn as [[Hlt Hn]|[-> <-]].
  - destruct (Htr n c' m Hn Hm) as [Hr (j & Hj & Hjm)].
    split; [exact Hr |]. exists j. split; [exact Hj |].
    now apply lookup_app_l_Some.
  - destruct (Hcs 0%nat c m eq_refl Hm) as [(j & Hj & _)|[Hr [j Hj]]]; [lia |].
    split; [exact Hr |]. exists j. split.
    + eapply lookup_lt_Some, Hj.
    + now apply lookup_app_l_Some.
Qed.

Lemma moves_orderly i s p p' m :
  orderly s -> threads s !! i = Some p -> moves E W i s p p' m ->
  orderly (set_thread i p' m).
Proof.
  intros [Htr Hth] Hi Hm. pose proof (Hth i p Hi) as Hp.
  destruct Hm; simpl in Hp.
  1,2,6,7,9: split; simpl; [exact Htr |]; intros j q Hj;
    apply insert_cases in Hj as [[_ ->]|[_ Hj]]; simpl;
    eauto using will_be_in_order_nil.
  1-3: split; simpl; [eauto using in_order_snoc |]; intros j q Hj;
    apply insert_cases in Hj as [[_ ->]|[_ Hj]]; simpl;
    eauto using will_be_in_order_nil, will_be_in_order_tail,
      will_be_in_order_later.
  split; [now destruct c | ]. simpl.
  replace (trace (put c v s)) with (trace s) by now destruct c.
  replace (threads (put c v s)) with (threads s) by now destruct c.
  intros j q Hj. apply insert_cases in Hj as [[_ ->]|[_ Hj]]; simpl;
    eauto using will_be_in_order_nil.
Qed.

Lemma exec_orderly sched s : orderly s -> orderly (exec E W sched s).
Proof.
  revert s; induction sched as [|i sched IH]; intros s H; simpl; [exact H |].
  destruct (step E W i s) as [s'|] eqn:Hs; [|now apply IH].
  apply IH. apply step_moves in Hs as (p & p' & m & Hi & Hm & ->).
  eauto using moves_orderly.
Qed.

Lemma drain_orderly fuel s : orderly s -> orderly (drain E W fuel s).
Proof.
  revert s; induction fuel as [|fuel IH]; intros s H; simpl; [exact H |].
  destruct (first_enabled E W (length (threads s)) s) as [s'|] eqn:Hf;
    [|exact H].
  apply first_enabled_Some in Hf as [i Hi]. apply IH.
  apply step_moves in Hi as (p & p' & m & Hi & Hm & ->).
  eauto using moves_orderly.
Qed.

Lemma run_in_order sched tasks ok ko tr :
  in_order E tr -> Forall (will_be_in_order E tr) tasks ->
  in_order E (trace (run E W sched tasks ok ko tr)).
Proof.
  intros Htr Htasks.
  assert (H0 : orderly (submit_all tasks ok ko tr)).
  { split; [exact Htr |]. simpl. clear Htr.
    induction Htasks as [|cs tasks Hcs _ IH]; intros [|i] p Hp; simpl in *;
      try discriminate.
    - now injection Hp as <-.
    - eauto. }
  apply (exec_orderly sched) in H0.
  exact (proj1 (drain_orderly _ _ H0)).
Qed.
End Ordering.

Section RunProperties.
Import PyStr Spec Notions.
Local Open Scope string_scope.
Variable E : env.

Lemma percentage_le_100 (part total : nat) :
  (part <= total)%nat -> total <> 0%nat -> (percentage part total <= 100)%Q.
Proof.
  intros Hle Hne. unfold percentage.
  assert (Hpos : (0 < inject_Z (Z.of_nat total))%Q).
  { unfold Qlt, inject_Z. simpl. lia. }
  assert (Hdiv : (inject_Z (Z.of_nat part) / inject_Z (Z.of_nat total) <= 1)%Q).
  { apply Qle_shift_div_r; [exact Hpos |]. rewrite Qmult_1_l.
    unfold Qle, inject_Z. simpl. lia. }
  replace 100%Q with (1 * 100)%Q by reflexivity.
  apply Qmult_le_compat_r; [exact Hdiv | discriminate].
Qed.

Lemma filter_length_le {A : Type} (f : A -> bool) (l : list A) :
  (List.length (List.filter f l) <= List.length l)%nat.
Proof. induction l as [|a l IH]; simpl; [lia |]. destruct (f a); simpl; lia. Qed.

Lemma download_directory_trace sched self0 s3_path local_directory
    max_workers b p :
  Parser._parse_s3_path s3_path = (b, p) ->
  run_call E (Makedirs local_directory) = None ->
  (0 < max_workers)%Z ->
  exists W,
    (0 < W)%nat
    /\ Download.calls (Download.download_directory E sched self0 s3_path
                         local_directory max_workers)
       = Pool.trace
           (Pool.run E W sched
              (List.map Download.download_file
                 (List.map (download_task b p local_directory)
                    (List.filter (download_keeps p)
                       (listed (pages (paginate E 0 b p))))))
              (Download.downloaded_files self0)
              (Download.download_errors self0)
              [Makedirs local_directory; Paginate b p]).
Proof.
  intros Hparse Hmk HW.
  destruct (executor_started _ HW) as (W & HWe & HWpos).
  exists W. split; [exact HWpos |].
  unfold Download.download_directory, Download._parse_s3_path.
  rewrite Hparse, Hmk, HWe, download_each_page. reflexivity.
Qed.

Lemma copy_folder_trace sched self0 source dest max_workers sb sp dp :
  Parser._parse_s3_path source = (sb, sp) ->
  Parser._parse_s3_path dest = (sb, dp) ->
  broken (paginate E 0 sb sp) = None ->
  (Copy.total_files self0
   + List.length (List.filter copy_keeps (listed (pages (paginate E 0 sb sp)))))%nat
  <> 0%nat ->
  (0 < max_workers)%Z ->
  exists W,
    (0 < W)%nat
    /\ Copy.calls (Copy.copy_folder E sched self0 source dest max_workers)
       = Pool.trace
           (Pool.run E W sched
              (List.map Copy.copy_object
                 (List.map (copy_task sb sp dp)
                    (List.filter copy_keeps
                       (listed (pages (paginate E 1 sb sp))))))
              (Copy.copied_files self0) (Copy.copy_errors self0)
              [Paginate sb sp; Paginate sb sp]).
Proof.
  intros Hs Hd Hbr Htot HW.
  destruct (executor_started _ HW) as (W & HWe & HWpos).
  exists W. split; [exact HWpos |].
  unfold Copy.copy_folder, Copy._parse_s3_path.
  rewrite Hs, Hd, String.eqb_refl. cbn [negb].
  rewrite Hbr, copy_count_pages.
  apply Nat.eqb_neq in Htot. rewrite Htot, HWe, copy_each_page. reflexivity.
Qed.

Lemma download_tasks_will_be_in_order tr b p d keys :
  Forall (will_be_in_order E tr)
    (List.map Download.download_file
       (List.map (download_task b p d) (List.filter (download_keeps p) keys))).
Proof.
  induction keys as [|k keys IH]; simpl; [constructor |].
  destruct (download_keeps p k); [|exact IH].
  simpl. constructor; [|exact IH].
  intros [|[|n]] c m Hn Hm; simpl in *; try discriminate.
  - injection Hn as <-. discriminate.
  - injection Hn as <-. injection Hm as <-. left. exists 0%nat.
    split; [lia | reflexivity].
Qed.

(** X5. In a download, every [download_file] call of the store comes
    after an [os.makedirs] of the directory of its local file, and that
    [os.makedirs] returned. *)
Theorem directory_is_made_before_fetch (sched : list nat)
    (d0 : Download.S3DirectoryDownloader)
    (s3_path local_directory : string) (max_workers : Z) :
  in_order E
    (Download.calls
       (Download.download_directory E sched d0 s3_path local_directory
          max_workers)).
Proof.
  destruct (Parser._parse_s3_path s3_path) as [b p] eqn:Hparse.
  destruct (run_call E (Makedirs local_directory)) as [e|] eqn:Hmk;
    [|destruct (Z.leb_spec max_workers 0) as [HW|HW]].
  3: {
    destruct (download_directory_trace sched d0 s3_path local_directory
                max_workers b p Hparse Hmk HW) as (W & _ & ->).
    apply run_in_order; [|apply download_tasks_will_be_in_order].
    intros [|[|n]] c m Hn Hm; simpl in Hn; try discriminate;
      injection Hn as <-; discriminate. }
  all: destruct (download_directory_stopped E sched d0 s3_path local_directory
                   max_workers) as [e' ->];
    [first [left; congruence | right; lia] |].
  all: intros [|n] c m Hn Hm; simpl in Hn; try discriminate;
    injection Hn as <-; discriminate.
Qed.
End RunProperties.

Section RunProperties3.
Import PyStr Spec Notions.
Local Open Scope string_scope.
Variable E : env.

Lemma results_iff_none_raised (rs : list (result bool)) :
  Pool.results (List.map Pool.Done rs) = Returned tt
  <-> Pool.count_raised rs = 0%nat.
Proof.
  unfold Pool.count_raised.
  induction rs as [|[b|e] rs IH]; simpl; [tauto | exact IH |].
  split; [discriminate | lia].
Qed.

Lemma results_tt (l : list Pool.pc) :
  Pool.results l = Returned tt \/ exists e, Pool.results l = Raised e.
Proof.
  induction l as [|p l IH]; simpl; [now left |].
  destruct p as [| | | | | |[b|e]]; eauto.
Qed.

Lemma returned_le_length (rs : list (result bool)) :
  (Pool.count_returned true rs + Pool.count_returned false rs
   <= List.length rs)%nat.
Proof. pose proof (count_results rs). lia. Qed.

(** The exit status of the download script. *)
Lemma download_exit_code_iff sched s3_path local_directory max_workers :
  let b := fst (Parser._parse_s3_path s3_path) in
  let p := snd (Parser._parse_s3_path s3_path) in
  let ls := paginate E 0 b p in
  let tasks := List.map (download_task b p local_directory)
                 (List.filter (download_keeps p) (listed (pages ls))) in
  let rs := List.map (fun t => Pool.alone E (Download.download_file t)) tasks in
  Download.exit_code
    (Download.main E sched s3_path local_directory max_workers) = 0%Z
  <-> negb (path_isdir E local_directory) && path_exists E local_directory
      = false
      /\ run_call E (Makedirs local_directory) = None
      /\ (0 < max_workers)%Z
      /\ broken ls = None
      /\ Pool.count_raised rs = 0%nat.
Proof.
  intros b p ls tasks rs. unfold Download.main.
  destruct (negb (path_isdir E local_directory) && path_exists E local_directory);
    [split; [discriminate | intros [[=] _]] |].
  assert (Hparse : Parser._parse_s3_path s3_path = (b, p))
    by (unfold b, p; now destruct (Parser._parse_s3_path s3_path)).
  destruct (run_call E (Makedirs local_directory)) as [e|] eqn:Hmk;
    [|destruct (Z.leb_spec max_workers 0) as [HW|HW]].
  3: {
    destruct (download_directory_started E sched Download.new s3_path
                local_directory max_workers b p Hparse Hmk HW)
      as (_ & _ & _ & _ & _ & Hout & _).
    rewrite Hout. fold ls tasks rs.
    destruct (broken ls) as [e|]; cbn.
    - split; [discriminate | intros (_ & _ & _ & [=] & _)].
    - destruct (results_tt (List.map Pool.Done rs)) as [Hr|[e Hr]];
        pose proof (results_iff_none_raised rs) as Hiff; rewrite Hr in *; cbn.
      + split; [intros _; repeat split; [exact HW | now apply Hiff] | reflexivity].
      + split; [discriminate |]. intros (_ & _ & _ & _ & H0).
        apply Hiff in H0. discriminate. }
  all: destruct (download_directory_stopped E sched Download.new s3_path
                   local_directory max_workers) as [e' ->];
    [first [left; congruence | right; lia] |]; cbn.
  all: split; [discriminate | intros (_ & H1 & H2 & _); first [discriminate | lia]].
Qed.

(** The exit status of the copy script. *)
Lemma copy_exit_code_iff sched source dest max_workers :
  let sb := fst (Parser._parse_s3_path source) in
  let sp := snd (Parser._parse_s3_path source) in
  let db := fst (Parser._parse_s3_path dest) in
  let dp := snd (Parser._parse_s3_path dest) in
  let first := paginate E 0 sb sp in
  let second := paginate E 1 sb sp in
  let total := List.length (List.filter copy_keeps (listed (pages first))) in
  let tasks := List.map (copy_task sb sp dp)
                 (List.filter copy_keeps (listed (pages second))) in
  let rs := List.map (fun t => Pool.alone E (Copy.copy_object t)) tasks in
  Copy.exit_code (Copy.main E sched source dest max_workers) = 0%Z
  <-> sb = db
      /\ broken first = None
      /\ (total = 0%nat
          \/ ((0 < max_workers)%Z /\ broken second = None
              /\ Pool.count_raised rs = 0%nat)).
Proof.
  intros sb sp db dp first second total tasks rs. unfold Copy.main.
  assert (Hs : Parser._parse_s3_path source = (sb, sp))
    by (unfold sb, sp; now destruct (Parser._parse_s3_path source)).
  assert (Hd : Parser._parse_s3_path dest = (db, dp))
    by (unfold db, dp; now destruct (Parser._parse_s3_path dest)).
  destruct (String.eqb_spec sb db) as [Heq|Hne].
  2: { rewrite copy_folder_cross_bucket by exact Hne. cbn.
       split; [discriminate | intros [? _]; contradiction]. }
  rewrite <- Heq in Hd.
  destruct (broken first) as [e|] eqn:Hbr;
    [|destruct (Nat.eq_dec total 0) as [H0|H0];
      [|destruct (Z.leb_spec max_workers 0) as [HW|HW]]].
  4: {
    destruct (copy_folder_started E sched Copy.new source dest max_workers
                sb sp dp Hs Hd Hbr H0 HW)
      as (_ & _ & _ & _ & _ & Hout & _).
    rewrite Hout. fold second tasks rs.
    destruct (broken second) as [e|]; cbn.
    - split; [discriminate | intros (_ & _ & [?|(_ & [=] & _)]); contradiction].
    - destruct (results_tt (List.map Pool.Done rs)) as [Hr|[e Hr]];
        pose proof (results_iff_none_raised rs) as Hiff; rewrite Hr in *; cbn.
      + split; [intros _ | reflexivity].
        split; [exact Heq |]. split; [reflexivity |]. right.
        split; [exact HW |]. split; [reflexivity | now apply Hiff].
      + split; [discriminate |]. intros (_ & _ & [?|(_ & _ & Hz)]);
          [contradiction |]. apply Hiff in Hz. discriminate. }
  all: destruct (copy_folder_stopped E sched Copy.new source dest max_workers
                   sb sp dp Hs Hd) as (res & -> & Hres);
    [fold first; cbn [Copy.total_files Copy.new Nat.add]; fold total;
     first [left; congruence | right; left; assumption | right; right; lia] |].
  all: fold first in Hres; cbn [Copy.total_files Copy.new Nat.add] in Hres;
    fold total in Hres; cbn [Copy.outcome Copy.stopped].
  - destruct res as [[]|e']; cbn [Copy.exit_code].
    + destruct Hres as [Hres _]. destruct (Hres eq_refl) as [? _]. congruence.
    + split; [discriminate | intros (_ & [=] & _)].
  - destruct res as [[]|e']; cbn [Copy.exit_code].
    + split; [intros _; repeat split; [exact Heq | now left] | reflexivity].
    + destruct Hres as [_ Hres]. now specialize (Hres (conj Hbr H0)).
  - destruct res as [[]|e']; cbn [Copy.exit_code].
    + destruct Hres as [Hres _]. destruct (Hres eq_refl) as [_ ?]. contradiction.
    + split; [discriminate | intros (_ & _ & [?|(? & _)]); [contradiction | lia]].
Qed.
End RunProperties3.

Section RunProperties4.
Import PyStr Spec Notions.
Local Open Scope string_scope.
Variable E : env.

Lemma alone_only_client_errors (cs : list call) :
  only_client_errors E -> Pool.raised (Pool.alone E cs) = false.
Proof.
  intros H. induction cs as [|c cs IH]; simpl; [reflexivity |].
  destruct (run_call E c) as [e|] eqn:Hc; [|exact IH].
  now rewrite (H c e Hc).
Qed.

Lemma count_raised_only_client_errors {A : Type} (f : A -> list call)
    (l : list A) :
  only_client_errors E ->
  Pool.count_raised (List.map (fun t => Pool.alone E (f t)) l) = 0%nat.
Proof.
  intros H. unfold Pool.count_raised.
  induction l as [|a l IH]; simpl; [reflexivity |].
  now rewrite alone_only_client_errors.
Qed.

(** X9. The download script exits with 0 or 1. It exits with 0 exactly
    when the local path passes the check, the local directory can be made,
    the number of workers is positive, the listing ends without an
    exception and no unit raises an exception; and exactly then it prints
    a summary. *)
Theorem download_exit_status (sched : list nat)
    (s3_path local_directory : string) (max_workers : Z) :
  let b := fst (Parser._parse_s3_path s3_path) in
  let p := snd (Parser._parse_s3_path s3_path) in
  let ls := paginate E 0 b p in
  let tasks := List.map (download_task b p local_directory)
                 (List.filter (download_keeps p) (listed (pages ls))) in
  let rs := List.map (fun t => Pool.alone E (Download.download_file t)) tasks in
  let x := Download.main E sched s3_path local_directory max_workers in
  (Download.exit_code x = 0%Z \/ Download.exit_code x = 1%Z)
  /\ (Download.exit_code x = 0%Z
      <-> negb (path_isdir E local_directory) && path_exists E local_directory
          = false
          /\ run_call E (Makedirs local_directory) = None
          /\ (0 < max_workers)%Z
          /\ broken ls = None
          /\ Pool.count_raised rs = 0%nat)
  /\ (Download.exit_code x = 0%Z <-> Download.printed x <> None).
Proof.
  intros b p ls tasks rs x.
  split; [|split; [apply download_exit_code_iff |]].
  - unfold x, Download.main.
    destruct (negb _ && _); [now right |].
    destruct (Download.outcome _); [now left | now right].
  - unfold x, Download.main.
    destruct (negb _ && _); [cbn; split; [discriminate | congruence] |].
    destruct (Download.outcome _); cbn; split; congruence.
Qed.

(** X10. The copy script exits with 0 or 1. It exits with 0 exactly when
    the two buckets are equal, the counting pass ends without an exception
    and either it counts no file, or the number of workers is positive, the
    copying pass ends without an exception and no unit raises one; and
    exactly then it prints a summary. *)
Theorem copy_exit_status (sched : list nat) (source dest : string)
    (max_workers : Z) :
  let sb := fst (Parser._parse_s3_path source) in
  let sp := snd (Parser._parse_s3_path source) in
  let db := fst (Parser._parse_s3_path dest) in
  let dp := snd (Parser._parse_s3_path dest) in
  let first := paginate E 0 sb sp in
  let second := paginate E 1 sb sp in
  let total := List.length (List.filter copy_keeps (listed (pages first))) in
  let tasks := List.map (copy_task sb sp dp)
                 (List.filter copy_keeps (listed (pages second))) in
  let rs := List.map (fun t => Pool.alone E (Copy.copy_object t)) tasks in
  let x := Copy.main E sched source dest max_workers in
  (Copy.exit_code x = 0%Z \/ Copy.exit_code x = 1%Z)
  /\ (Copy.exit_code x = 0%Z
      <-> sb = db
          /\ broken first = None
          /\ (total = 0%nat
              \/ ((0 < max_workers)%Z /\ broken second = None
                  /\ Pool.count_raised rs = 0%nat)))
  /\ (Copy.exit_code x = 0%Z <-> Copy.printed x <> None).
Proof.
  intros sb sp db dp first second total tasks rs x.
  split; [|split; [apply copy_exit_code_iff |]].
  - unfold x, Copy.main. destruct (Copy.outcome _); [now left | now right].
  - unfold x, Copy.main. destruct (Copy.outcome _); cbn; split; congruence.
Qed.

(** X11. When the only exception the environment raises is [ClientError],
    no failure of a unit changes the exit status: it then depends only on
    the checks made before the units run and on the listings. *)
Theorem client_errors_are_not_fatal (sched : list nat)
    (s3_path local_directory source dest : string) (max_workers : Z) :
  only_client_errors E ->
  let ls := paginate E 0 (fst (Parser._parse_s3_path s3_path))
              (snd (Parser._parse_s3_path s3_path)) in
  let sb := fst (Parser._parse_s3_path source) in
  let sp := snd (Parser._parse_s3_path source) in
  (Download.exit_code
     (Download.main E sched s3_path local_directory max_workers) = 0%Z
   <-> negb (path_isdir E local_directory) && path_exists E local_directory
       = false
       /\ run_call E (Makedirs local_directory) = None
       /\ (0 < max_workers)%Z
       /\ broken ls = None)
  /\ (Copy.exit_code (Copy.main E sched source dest max_workers) = 0%Z
      <-> sb = fst (Parser._parse_s3_path dest)
          /\ broken (paginate E 0 sb sp) = None
          /\ (List.length
                (List.filter copy_keeps
                   (listed (pages (paginate E 0 sb sp)))) = 0%nat
              \/ ((0 < max_workers)%Z
                  /\ broken (paginate E 1 sb sp) = None))).
Proof.
  intros Honly ls sb sp. split.
  - rewrite download_exit_code_iff.
    rewrite (count_raised_only_client_errors Download.download_file _ Honly).
    fold ls. tauto.
  - rewrite copy_exit_code_iff.
    rewrite (count_raised_only_client_errors Copy.copy_object _ Honly).
    fold sb sp. tauto.
Qed.
End RunProperties4.

Lemma client_errors_are_not_fatal_witness :
  Notions.only_client_errors
    (Spec.failing Spec.scenario_listing Spec.fetches_f2 ClientError)
  /\ Download.exit_code
       (Download.main
          (Spec.failing Spec.scenario_listing Spec.fetches_f2 ClientError)
          [1; 0; 1]%nat "s3://bucket/a/" "/out" 4) = 0%Z.
Proof.
  assert (H : Notions.only_client_errors
                (Spec.failing Spec.scenario_listing Spec.fetches_f2 ClientError)).
  { intros c e. simpl. destruct (Spec.fetches_f2 c); [|discriminate].
    now intros [= <-]. }
  split; [exact H |].
  apply (proj1 (client_errors_are_not_fatal _ [1; 0; 1]%nat "s3://bucket/a/"
                  "/out" "s3://bucket/a/" "s3://bucket/b/" 4 H)).
  repeat split.
Defined.

Section RunProperties5.
Import PyStr Spec Notions.
Local Open Scope string_scope.
Variable E : env.

Lemma rate_at_most_100 (part total : nat) :
  (part <= total)%nat ->
  at_most_100 (if (0 <? total)%nat then Percent (percentage part total)
               else NoFilesProcessed).
Proof.
  intros H. destruct (Nat.ltb_spec 0 total); simpl; [|exact I].
  apply percentage_le_100; lia.
Qed.

(** X7. Whenever the download script prints a summary, its total is the
    number of listed keys (markers included), the downloads and the errors
    together do not exceed the total, and the success rate is at most
    100. *)
Theorem download_summary_is_consistent (sched : list nat)
    (s3_path local_directory : string) (max_workers : Z) :
  match Download.printed
          (Download.main E sched s3_path local_directory max_workers) with
  | Some s =>
      sum_total s
      = List.length
          (listed (pages (paginate E 0 (fst (Parser._parse_s3_path s3_path))
                            (snd (Parser._parse_s3_path s3_path)))))
      /\ (sum_succeeded s + sum_errors s <= sum_total s)%nat
      /\ at_most_100 (sum_rate s)
  | None => True
  end.
Proof.
  unfold Download.main.
  destruct (negb _ && _); [exact I |].
  destruct (Parser._parse_s3_path s3_path) as [b p] eqn:Hparse.
  destruct (run_call E (Makedirs local_directory)) as [e|] eqn:Hmk;
    [|destruct (Z.leb_spec max_workers 0) as [HW|HW]].
  3: {
    destruct (download_directory_started E sched Download.new s3_path
                local_directory max_workers b p Hparse Hmk HW)
      as (Hsub & _ & Htot & Hok & Hko & _ & _).
    destruct (Download.outcome _); [|exact I].
    cbn [Download.printed Download.print_summary sum_total sum_succeeded
         sum_errors sum_rate fst snd].
    rewrite Htot, Hok, Hko. cbn [Download.new Download.total_files
      Download.downloaded_files Download.download_errors Nat.add].
    set (keys := listed (pages (paginate E 0 b p))).
    set (rs := List.map _ _).
    assert (Hle : (Pool.count_returned true rs + Pool.count_returned false rs
                   <= List.length keys)%nat).
    { pose proof (returned_le_length rs) as H1.
      unfold rs in H1 at 3. rewrite !List.length_map in H1.
      pose proof (filter_length_le (download_keeps p) keys). lia. }
    split; [reflexivity |]. split; [exact Hle |].
    apply rate_at_most_100. lia. }
  all: destruct (download_directory_stopped E sched Download.new s3_path
                   local_directory max_workers) as [e' ->];
    [first [left; congruence | right; lia] |]; exact I.
Qed.

(** X8. When the counting pass and the copying pass of a copy see the
    same pages, a printed summary has copies plus errors equal to the
    total, and a success rate of at most 100. *)
Theorem copy_summary_is_exact (sched : list nat) (source dest : string)
    (max_workers : Z) :
  pages (paginate E 0 (fst (Parser._parse_s3_path source))
           (snd (Parser._parse_s3_path source)))
  = pages (paginate E 1 (fst (Parser._parse_s3_path source))
             (snd (Parser._parse_s3_path source))) ->
  match Copy.printed (Copy.main E sched source dest max_workers) with
  | Some s =>
      (sum_succeeded s + sum_errors s)%nat = sum_total s
      /\ at_most_100 (sum_rate s)
  | None => True
  end.
Proof.
  intros Hsame. unfold Copy.main.
  destruct (Parser._parse_s3_path source) as [sb sp] eqn:Hs.
  destruct (Parser._parse_s3_path dest) as [db dp] eqn:Hd.
  cbn [fst snd] in Hsame.
  destruct (String.eqb_spec sb db) as [<-|Hne].
  2: { rewrite copy_folder_cross_bucket by (rewrite Hs, Hd; exact Hne).
       exact I. }
  set (first := paginate E 0 sb sp) in *.
  set (total := (Copy.total_files Copy.new
         + List.length (List.filter copy_keeps (listed (pages first))))%nat).
  destruct (broken first) as [e|] eqn:Hbr;
    [|destruct (Nat.eq_dec total 0) as [H0|H0];
      [|destruct (Z.leb_spec max_workers 0) as [HW|HW]]].
  4: {
    destruct (copy_folder_started E sched Copy.new source dest max_workers
                sb sp dp Hs Hd Hbr H0 HW)
      as (_ & _ & Htot & Hok & Hko & Hout & _).
    fold first in Htot. fold total in Htot.
    destruct (Copy.outcome _) as [[]|] eqn:Ho; [|exact I].
    cbn [Copy.printed Copy.print_summary sum_total sum_succeeded
         sum_errors sum_rate].
    rewrite Htot, Hok, Hko.
    cbn [Copy.new Copy.copied_files Copy.copy_errors Nat.add].
    set (rs := List.map (fun t => Pool.alone E (Copy.copy_object t)) _) in *.
    assert (Hnone : Pool.count_raised rs = 0%nat).
    { apply results_none_raised.
      destruct (broken (paginate E 1 sb sp)); [discriminate | now symmetry]. }
    assert (Hlen : List.length rs = total).
    { unfold rs, total. rewrite !List.length_map, <- Hsame. reflexivity. }
    pose proof (count_results rs) as Hc.
    split; [lia |]. apply rate_at_most_100. lia. }
  all: destruct (copy_folder_stopped E sched Copy.new source dest max_workers
                   sb sp dp Hs Hd) as (res & -> & Hres);
    [fold first; fold total;
     first [left; congruence | right; left; assumption | right; right; lia] |].
  all: cbn [Copy.outcome Copy.stopped]; destruct res as [[]|e']; [|exact I].
  all: fold first in Hres; fold total in Hres;
    destruct (proj1 Hres eq_refl) as [_ Hz].
  all: fold first; fold total; rewrite Hz.
  all: split; [reflexivity | exact I].
Qed.
End RunProperties5.

Lemma copy_summary_is_exact_witness :
  Copy.printed
    (Copy.main (Spec.failing Spec.scenario_listing Spec.fetches_f2 ClientError)
       [0; 1; 0]%nat "s3://bucket/a/" "s3://bucket/b/" 3)
  = Some {| sum_total := 2; sum_succeeded := 1; sum_errors := 1;
            sum_rate := Percent (percentage 1 2) |}
  /\ (1 + 1 = 2)%nat.
Proof.
  pose proof (copy_summary_is_exact
                (Spec.failing Spec.scenario_listing Spec.fetches_f2 ClientError)
                [0; 1; 0]%nat "s3://bucket/a/" "s3://bucket/b/" 3 eq_refl) as H.
  assert (Hp : Copy.printed
    (Copy.main (Spec.failing Spec.scenario_listing Spec.fetches_f2 ClientError)
       [0; 1; 0]%nat "s3://bucket/a/" "s3://bucket/b/" 3)
  = Some {| sum_total := 2; sum_succeeded := 1; sum_errors := 1;
            sum_rate := Percent (percentage 1 2) |}) by reflexivity.
  rewrite Hp in H. split; [exact Hp | exact (proj1 H)].
Defined.

Section RunProperties6.
Import PyStr Spec Notions.
Local Open Scope string_scope.
Variable E : env.

(** X12. A copy within one bucket whose counting pass ends and finds no
    key other than markers stops there, whatever the number of workers:
    it lists once, submits nothing, prints "No files processed" and exits
    with 0. *)
Theorem copy_without_files_lists_once (sched : list nat)
    (source dest : string) (max_workers : Z) :
  let sb := fst (Parser._parse_s3_path source) in
  let sp := snd (Parser._parse_s3_path source) in
  sb = fst (Parser._parse_s3_path dest) ->
  broken (paginate E 0 sb sp) = None ->
  List.filter copy_keeps (listed (pages (paginate E 0 sb sp))) = [] ->
  let x := Copy.main E sched source dest max_workers in
  Copy.calls (Copy.final x) = [Paginate sb sp]
  /\ Copy.submitted (Copy.final x) = []
  /\ Copy.printed x
     = Some {| sum_total := 0; sum_succeeded := 0; sum_errors := 0;
               sum_rate := NoFilesProcessed |}
  /\ Copy.exit_code x = 0%Z.
Proof.
  intros sb sp Hb Hbr Hnone x.
  assert (Hs : Parser._parse_s3_path source = (sb, sp))
    by (unfold sb, sp; now destruct (Parser._parse_s3_path source)).
  assert (Hd : Parser._parse_s3_path dest
               = (sb, snd (Parser._parse_s3_path dest)))
    by (rewrite Hb; now destruct (Parser._parse_s3_path dest)).
  destruct (copy_folder_stopped E sched Copy.new source dest max_workers
              sb sp _ Hs Hd) as (res & Hr & Hres).
  { right; left. now rewrite Hnone. }
  rewrite Hnone in Hr, Hres.
  cbn [List.length Nat.add Copy.total_files Copy.new Copy.copied_files
       Copy.copy_errors] in Hr, Hres.
  assert (res = Returned tt) as -> by (apply Hres; now split).
  unfold x, Copy.main. rewrite Hr. repeat split.
Qed.

(** X13. When the listing of a download raises after some pages, the run
    raises that exception, yet the units of the pages already received
    were all submitted and run to the end, and the counters hold their
    results. *)
Theorem download_listing_failure (sched : list nat)
    (s3_path local_directory : string) (max_workers : Z) (e : exn) :
  let b := fst (Parser._parse_s3_path s3_path) in
  let p := snd (Parser._parse_s3_path s3_path) in
  let ls := paginate E 0 b p in
  let tasks := List.map (download_task b p local_directory)
                 (List.filter (download_keeps p) (listed (pages ls))) in
  let rs := List.map (fun t => Pool.alone E (Download.download_file t)) tasks in
  run_call E (Makedirs local_directory) = None ->
  (0 < max_workers)%Z ->
  broken ls = Some e ->
  let d := Download.download_directory E sched Download.new s3_path
             local_directory max_workers in
  Download.outcome d = Raised e
  /\ Download.submitted d = tasks
  /\ Download.futures d = List.map Pool.Done rs
  /\ Download.downloaded_files (Download.self d) = Pool.count_returned true rs
  /\ Download.download_errors (Download.self d) = Pool.count_returned false rs
  /\ Download.total_files (Download.self d) = List.length (listed (pages ls)).
Proof.
  intros b p ls tasks rs Hmk HW Hbr d.
  assert (Hparse : Parser._parse_s3_path s3_path = (b, p))
    by (unfold b, p; now destruct (Parser._parse_s3_path s3_path)).
  destruct (download_directory_started E sched Download.new s3_path
              local_directory max_workers b p Hparse Hmk HW)
    as (Hsub & Hfut & Htot & Hok & Hko & Hout & _).
  fold ls in Hout. rewrite Hbr in Hout. repeat split; assumption.
Qed.

(** X14. With a number of workers that is not positive both runs raise
    the [ValueError] of the executor: the download after it made the local
    directory and before any listing, the copy after its counting pass
    (with [total_files] set) and before the copying pass. *)
Theorem nonpositive_workers_abort (sched : list nat)
    (s3_path local_directory source dest : string) (max_workers : Z) :
  let sb := fst (Parser._parse_s3_path source) in
  let sp := snd (Parser._parse_s3_path source) in
  let counted := List.length
                   (List.filter copy_keeps
                      (listed (pages (paginate E 0 sb sp)))) in
  (max_workers <= 0)%Z ->
  run_call E (Makedirs local_directory) = None ->
  sb = fst (Parser._parse_s3_path dest) ->
  broken (paginate E 0 sb sp) = None ->
  counted <> 0%nat ->
  let d := Download.download_directory E sched Download.new s3_path
             local_directory max_workers in
  let c := Copy.copy_folder E sched Copy.new source dest max_workers in
  Download.outcome d = Raised (ValueError "max_workers must be greater than 0")
  /\ Download.calls d = [Makedirs local_directory]
  /\ Download.self d = Download.new
  /\ Copy.outcome c = Raised (ValueError "max_workers must be greater than 0")
  /\ Copy.calls c = [Paginate sb sp]
  /\ Copy.submitted c = []
  /\ Copy.total_files (Copy.self c) = counted.
Proof.
  intros sb sp counted HW Hmk Hb Hbr Hcount d c.
  assert (Hexec : ThreadPoolExecutor max_workers
                  = Raised (ValueError "max_workers must be greater than 0")).
  { unfold ThreadPoolExecutor. destruct (Z.leb_spec max_workers 0); [easy | lia]. }
  split; [|split; [|split]].
  1-3: unfold d, Download.download_directory;
    destruct (Download._parse_s3_path s3_path); rewrite Hmk, Hexec; reflexivity.
  assert (Hs : Parser._parse_s3_path source = (sb, sp))
    by (unfold sb, sp; now destruct (Parser._parse_s3_path source)).
  assert (Hd : Parser._parse_s3_path dest
               = (sb, snd (Parser._parse_s3_path dest)))
    by (rewrite Hb; now destruct (Parser._parse_s3_path dest)).
  unfold c, Copy.copy_folder, Copy._parse_s3_path.
  rewrite Hs, Hd, String.eqb_refl. cbn [negb].
  rewrite Hbr, copy_count_pages. cbn [Copy.total_files Copy.new Nat.add].
  fold counted. apply Nat.eqb_neq in Hcount. rewrite Hcount, Hexec.
  repeat split.
Qed.

(** X6. No object is moved before the listing: a download has made the
    local directory and started its listing before its first transfer
    call, and a copy has started both listing passes before its first
    copy call. *)
Theorem listing_precedes_transfers (sched : list nat)
    (d0 : Download.S3DirectoryDownloader) (c0 : Copy.S3FolderCopier)
    (s3_path local_directory source dest : string) (max_workers : Z) :
  let d := Download.download_directory E sched d0 s3_path local_directory
             max_workers in
  let c := Copy.copy_folder E sched c0 source dest max_workers in
  (forall n x, Download.calls d !! n = Some x -> is_transfer x = true ->
     (2 <= n)%nat
     /\ Download.calls d !! 0%nat = Some (Makedirs local_directory)
     /\ Download.calls d !! 1%nat
        = Some (Paginate (fst (Parser._parse_s3_path s3_path))
                  (snd (Parser._parse_s3_path s3_path))))
  /\ (forall n x, Copy.calls c !! n = Some x -> is_transfer x = true ->
     (2 <= n)%nat
     /\ Copy.calls c !! 0%nat
        = Some (Paginate (fst (Parser._parse_s3_path source))
                  (snd (Parser._parse_s3_path source)))
     /\ Copy.calls c !! 1%nat
        = Some (Paginate (fst (Parser._parse_s3_path source))
                  (snd (Parser._parse_s3_path source)))).
Proof.
  intros d c. split.
  - intros n x Hn Hx.
    destruct (Parser._parse_s3_path s3_path) as [b p] eqn:Hparse.
    destruct (run_call E (Makedirs local_directory)) as [e|] eqn:Hmk;
      [|destruct (Z.leb_spec max_workers 0) as [HW|HW]].
    3: {
      destruct (download_directory_started E sched d0 s3_path local_directory
                  max_workers b p Hparse Hmk HW)
        as (_ & _ & _ & _ & _ & _ & rest & Hcalls & _).
      fold d in Hcalls. rewrite Hcalls in *. cbn [fst snd].
      destruct n as [|[|n]]; simpl in Hn;
        [injection Hn as <-; discriminate | injection Hn as <-; discriminate |].
      repeat split. lia. }
    all: destruct (download_directory_stopped E sched d0 s3_path
                     local_directory max_workers) as [e' He'];
      [first [left; congruence | right; lia] |].
    all: unfold d in Hn; rewrite He' in Hn; simpl in Hn.
    all: destruct n; simpl in Hn; [injection Hn as <- |]; discriminate.
  - intros n x Hn Hx.
    destruct (Parser._parse_s3_path source) as [sb sp] eqn:Hs.
    destruct (Parser._parse_s3_path dest) as [db dp] eqn:Hd.
    cbn [fst snd] in *.
    destruct (String.eqb_spec sb db) as [<-|Hne].
    + set (first := paginate E 0 sb sp).
      set (total := (Copy.total_files c0
             + List.length (List.filter copy_keeps (listed (pages first))))%nat).
      destruct (broken first) as [e|] eqn:Hbr;
        [|destruct (Nat.eq_dec total 0) as [H0|H0];
          [|destruct (Z.leb_spec max_workers 0) as [HW|HW]]].
      4: {
        destruct (copy_folder_started E sched c0 source dest max_workers
                    sb sp dp Hs Hd Hbr H0 HW)
          as (_ & _ & _ & _ & _ & _ & rest' & Hcalls' & _).
        fold c in Hcalls'. rewrite Hcalls' in *.
        destruct n as [|[|n]]; simpl in Hn;
          [injection Hn as <-; discriminate | injection Hn as <-; discriminate |].
        repeat split. lia. }
      all: destruct (copy_folder_stopped E sched c0 source dest max_workers
                       sb sp dp Hs Hd) as (res & Hr & _);
        [fold first; fold total;
         first [left; congruence | right; left; assumption | right; right; lia] |].
      all: unfold c in Hn; rewrite Hr in Hn; simpl in Hn.
      all: destruct n; simpl in Hn; [injection Hn as <- |]; discriminate.
    + unfold c in Hn.
      rewrite copy_folder_cross_bucket in Hn by (rewrite Hs, Hd; exact Hne).
      simpl in Hn. discriminate.
Qed.
End RunProperties6.

Section ParserProperties.
Import PyStr Spec Notions.
Local Open Scope string_scope.

Lemma before_slash_no_slash (s : string) : has_slash (before_slash s) = false.
Proof.
  induction s as [|a s IH]; simpl; [reflexivity |].
  destruct (Ascii.eqb a "/") eqn:Ha; simpl; [reflexivity |].
  now rewrite Ha.
Qed.

Lemma no_slash_before (b : string) : has_slash b = false -> before_slash b = b.
Proof.
  induction b as [|a b IH]; simpl; [reflexivity |].
  intros H. apply orb_false_elim in H as [Ha Hb]. rewrite Ha.
  now rewrite IH.
Qed.

Lemma no_slash_after (b : string) : has_slash b = false -> after_slash b = "".
Proof.
  induction b as [|a b IH]; simpl; [reflexivity |].
  intros H. apply orb_false_elim in H as [Ha Hb]. rewrite Ha. now apply IH.
Qed.

Lemma cut_joined (b r : string) :
  has_slash b = false ->
  before_slash (b ++ "/" ++ r) = b /\ after_slash (b ++ "/" ++ r) = r.
Proof.
  intros H. pose proof (cut_rebuilt b r) as Hc.
  now rewrite (no_slash_before b H) in Hc.
Qed.

Lemma slash_cut (s : string) :
  has_slash s = true -> s = before_slash s ++ "/" ++ after_slash s.
Proof.
  induction s as [|a s IH]; simpl; [discriminate |].
  destruct (Ascii.eqb a "/") eqn:Ha; simpl.
  - intros _. apply Ascii.eqb_eq in Ha. now subst a.
  - intros H. f_equal. now apply IH.
Qed.

(** X15. For a bucket without a slash and a prefix that is empty or ends
    with a slash, parsing the address [s3://bucket/prefix] gives back the
    bucket and the prefix. *)
Theorem parse_of_address (bucket prefix : string) :
  has_slash bucket = false ->
  prefix = "" \/ endswith prefix "/" = true ->
  Parser._parse_s3_path (address bucket prefix) = (bucket, prefix).
Proof.
  intros Hb Hp. rewrite parse_s3_path_spec. unfold bucket_portion.
  rewrite strip_scheme_address.
  destruct (cut_joined bucket prefix Hb) as [-> ->].
  now rewrite normalize_fixed.
Qed.

Lemma not_scheme (b t : string) :
  has_slash b = false -> b <> "s3:" ->
  strip_scheme (b ++ "/" ++ t) = b ++ "/" ++ t.
Proof.
  intros Hb Hne. unfold strip_scheme.
  destruct (startswith (b ++ "/" ++ t) "s3://") eqn:Hs; [|reflexivity].
  exfalso. apply Hne.
  destruct b as [|a1 [|a2 [|a3 [|a4 b]]]]; simpl in Hs, Hb;
    repeat match goal with
           | H : (_ && _)%bool = true |- _ => apply andb_prop in H as [? ?]
           | H : (_ || _)%bool = false |- _ => apply orb_false_elim in H as [? ?]
           | H : Ascii.eqb _ _ = true |- _ => apply Ascii.eqb_eq in H; subst
           end;
    try discriminate; try reflexivity.
Qed.

(** X16. For a bucket without a slash other than ["s3:"] and a non-empty
    rest without a slash at its end, the address parses to the same pair
    with or without the [s3://] in front and with or without a slash at
    the end. *)
Theorem address_spellings (bucket rest : string) :
  has_slash bucket = false -> bucket <> "s3:" ->
  rest <> "" -> endswith rest "/" = false ->
  Parser._parse_s3_path (bucket ++ "/" ++ rest) = (bucket, rest ++ "/")
  /\ Parser._parse_s3_path (bucket ++ "/" ++ rest ++ "/")
     = (bucket, rest ++ "/")
  /\ Parser._parse_s3_path ("s3://" ++ bucket ++ "/" ++ rest)
     = (bucket, rest ++ "/")
  /\ Parser._parse_s3_path ("s3://" ++ bucket ++ "/" ++ rest ++ "/")
     = (bucket, rest ++ "/").
Proof.
  intros Hb Hne Hr Hs.
  assert (Hn1 : normalize rest = rest ++ "/").
  { unfold normalize. apply String.eqb_neq in Hr. now rewrite Hr, Hs. }
  assert (Hn2 : normalize (rest ++ "/") = rest ++ "/").
  { apply normalize_fixed. right. apply endswith_app. }
  rewrite !parse_s3_path_spec. unfold bucket_portion.
  fold (address bucket rest). fold (address bucket (rest ++ "/")).
  rewrite !strip_scheme_address, !not_scheme by assumption.
  destruct (cut_joined bucket rest Hb) as [-> ->].
  destruct (cut_joined bucket (rest ++ "/") Hb) as [-> ->].
  rewrite Hn1, Hn2. repeat split.
Qed.

(** X17. The parsed bucket never contains a slash, and parsing loses
    nothing but the scheme and a missing final slash: when the address
    past the scheme has a slash, bucket/prefix is that address, possibly
    with one slash added; when it has none, the bucket is that address and
    the prefix is empty. *)
Theorem parse_keeps_the_address (raw : string) :
  let bucket := fst (Parser._parse_s3_path raw) in
  let prefix := snd (Parser._parse_s3_path raw) in
  let s := strip_scheme raw in
  has_slash bucket = false
  /\ (if has_slash s
      then bucket ++ "/" ++ prefix = s \/ bucket ++ "/" ++ prefix = s ++ "/"
      else bucket = s /\ prefix = "").
Proof.
  intros bucket prefix s. unfold bucket, prefix.
  rewrite parse_s3_path_spec. cbn [fst snd]. unfold bucket_portion. fold s.
  split; [apply before_slash_no_slash |].
  destruct (has_slash s) eqn:Hs.
  - apply slash_cut in Hs. unfold normalize.
    destruct (String.eqb_spec (after_slash s) "") as [He|He].
    + left. rewrite He in Hs. now symmetry.
    + destruct (endswith (after_slash s) "/").
      * left. now symmetry.
      * right. rewrite Hs at 3. now rewrite !app_assoc_s.
  - split; [now apply no_slash_before |].
    now rewrite (no_slash_after s Hs).
Qed.
End ParserProperties.

Section PlannerProperties.
Import PyStr Spec Notions.
Local Open Scope string_scope.

Lemma copy_relative_path_app (prefix r : string) :
  Copy.relative_path prefix (prefix ++ r) = r.
Proof.
  unfold Copy.relative_path. destruct (truthy prefix) eqn:Ht.
  - apply slice_from_app.
  - apply truthy_false in Ht. now subst.
Qed.

Lemma download_relative_path_split (prefix key : string) :
  startswith key prefix = true ->
  key = prefix ++ Download.relative_path prefix key.
Proof.
  intros H. unfold Download.relative_path. destruct (truthy prefix) eqn:Ht.
  - now apply startswith_split.
  - apply truthy_false in Ht. now subst.
Qed.

Lemma copy_relative_path_split (prefix key : string) :
  startswith key prefix = true ->
  key = prefix ++ Copy.relative_path prefix key.
Proof.
  intros H. unfold Copy.relative_path. destruct (truthy prefix) eqn:Ht.
  - now apply startswith_split.
  - apply truthy_false in Ht. now subst.
Qed.

Lemma keeps_agree (prefix key : string) :
  normalized prefix -> startswith key prefix = true -> key <> "" ->
  download_keeps prefix key = copy_keeps key.
Proof.
  intros Hp Hk Hne. unfold download_keeps, copy_keeps.
  destruct (String.eqb_spec (Download.relative_path prefix key) "") as [He|He];
    [|reflexivity].
  simpl. apply download_relative_path_split in Hk. rewrite He in Hk.
  rewrite app_empty_r in Hk. subst key.
  destruct Hp as [->|Hp]; [contradiction |].
  unfold marker. now rewrite Hp.
Qed.

Lemma map_key_download_task b p d keys :
  List.map Download.key (List.map (download_task b p d) keys) = keys.
Proof. induction keys as [|k keys IH]; simpl; [reflexivity | now rewrite IH]. Qed.

Lemma map_key_copy_task b sp dp keys :
  List.map Copy.source_key (List.map (copy_task b sp dp) keys) = keys.
Proof. induction keys as [|k keys IH]; simpl; [reflexivity | now rewrite IH]. Qed.

(** X18. For a prefix that is empty or ends with a slash and a listing of
    non-empty keys that start with it, the download loop and the copy loop
    submit the same keys in the same order, and the counting loop of the
    copy counts exactly that many. *)
Theorem planners_pick_the_same_keys (bucket prefix local_directory
    dest_prefix : string) (ps : list page) (total : nat) :
  prefix = "" \/ endswith prefix "/" = true ->
  Forall (fun key => startswith key prefix = true /\ key <> "") (listed ps) ->
  List.map Download.key
    (snd (Download.each_page bucket prefix local_directory ps (total, [])))
  = List.map Copy.source_key
      (Copy.each_page bucket prefix dest_prefix ps [])
  /\ Copy.count_pages ps 0
     = List.length
         (snd (Download.each_page bucket prefix local_directory ps (total, []))).
Proof.
  intros Hp Hkeys.
  rewrite download_each_page, copy_each_page, copy_count_pages.
  cbn [fst snd app Nat.add].
  rewrite map_key_download_task, map_key_copy_task, List.length_map.
  assert (Hf : List.filter (download_keeps prefix) (listed ps)
               = List.filter copy_keeps (listed ps)).
  { induction Hkeys as [|k keys [Hk Hne] _ IH]; simpl; [reflexivity |].
    rewrite (keeps_agree prefix k Hp Hk Hne).
    destruct (copy_keeps k); now rewrite IH. }
  now rewrite Hf.
Qed.

Variable E : env.

(** X19. Every unit of a copy stays in the source bucket, its destination
    key starts with the destination prefix, and what follows the prefix is
    the relative path of the source key. *)
Theorem copy_keeps_relative_paths (sched : list nat) (c0 : Copy.S3FolderCopier)
    (source dest : string) (max_workers : Z) :
  let sp := snd (Parser._parse_s3_path source) in
  let dp := snd (Parser._parse_s3_path dest) in
  Forall (fun t => startswith (Copy.dest_key t) dp = true
                   /\ Copy.relative_path dp (Copy.dest_key t)
                      = Copy.relative_path sp (Copy.source_key t)
                   /\ Copy.bucket_name t = fst (Parser._parse_s3_path source))
    (Copy.submitted (Copy.copy_folder E sched c0 source dest max_workers)).
Proof.
  intros sp dp.
  destruct (copy_folder_always E sched c0 source dest max_workers)
    as (_ & _ & _ & Hc & _).
  revert Hc. apply List.Forall_impl. intros t [_ Ht].
  fold sp dp in Ht. rewrite Ht at 1 2 4. cbn [Copy.dest_key Copy.bucket_name copy_task].
  split; [apply startswith_app |].
  split; [apply copy_relative_path_app | reflexivity].
Qed.

(** X20. Two submitted units of a copy whose source keys start with the
    source prefix and whose destination keys are equal are the same
    unit. *)
Theorem copy_destinations_are_distinct (sched : list nat)
    (c0 : Copy.S3FolderCopier) (source dest : string) (max_workers : Z)
    (t1 t2 : Copy.task) :
  let sp := snd (Parser._parse_s3_path source) in
  let c := Copy.copy_folder E sched c0 source dest max_workers in
  In t1 (Copy.submitted c) -> In t2 (Copy.submitted c) ->
  startswith (Copy.source_key t1) sp = true ->
  startswith (Copy.source_key t2) sp = true ->
  Copy.dest_key t1 = Copy.dest_key t2 ->
  t1 = t2.
Proof.
  intros sp c H1 H2 Hs1 Hs2 Heq.
  destruct (copy_folder_always E sched c0 source dest max_workers)
    as (_ & _ & _ & Hc & _).
  fold c sp in Hc. rewrite List.Forall_forall in Hc.
  destruct (Hc t1 H1) as [_ Ht1]. destruct (Hc t2 H2) as [_ Ht2].
  assert (Hrel : Copy.relative_path sp (Copy.source_key t1)
                 = Copy.relative_path sp (Copy.source_key t2)).
  { rewrite Ht1, Ht2 in Heq. cbn [Copy.dest_key copy_task] in Heq.
    apply (f_equal (Copy.relative_path (snd (Parser._parse_s3_path dest)))) in Heq.
    now rewrite !copy_relative_path_app in Heq. }
  assert (Hkey : Copy.source_key t1 = Copy.source_key t2).
  { rewrite (copy_relative_path_split sp _ Hs1),
            (copy_relative_path_split sp _ Hs2). now rewrite Hrel. }
  rewrite Ht1, Ht2. now rewrite Hkey.
Qed.

(** X21. When source and destination have the same prefix, every unit
    whose source key starts with the prefix copies the key onto itself. *)
Theorem copy_onto_itself (sched : list nat) (c0 : Copy.S3FolderCopier)
    (source dest : string) (max_workers : Z) :
  snd (Parser._parse_s3_path source) = snd (Parser._parse_s3_path dest) ->
  Forall (fun t => startswith (Copy.source_key t)
                     (snd (Parser._parse_s3_path source)) = true ->
                   Copy.dest_key t = Copy.source_key t)
    (Copy.submitted (Copy.copy_folder E sched c0 source dest max_workers)).
Proof.
  intros Hsame.
  destruct (copy_folder_always E sched c0 source dest max_workers)
    as (_ & _ & _ & Hc & _).
  revert Hc. apply List.Forall_impl. intros t [_ Ht] Hs.
  rewrite Ht at 1. cbn [Copy.dest_key copy_task]. rewrite <- Hsame.
  symmetry. now apply copy_relative_path_split.
Qed.

Lemma join_relative (a b : string) :
  startswith b "/" = false -> startswith (PosixPath.join a b) a = true.
Proof.
  intros H. unfold PosixPath.join. rewrite H.
  destruct (negb (truthy a) || endswith a "/"); apply startswith_app.
Qed.

Lemma join_absolute (a b : string) :
  startswith b "/" = true -> PosixPath.join a b = b.
Proof. intros H. unfold PosixPath.join. now rewrite H. Qed.

Lemma join_ends (a b : string) : endswith (PosixPath.join a b) b = true.
Proof.
  unfold PosixPath.join. destruct (startswith b "/").
  - apply (endswith_app "" b).
  - destruct (negb (truthy a) || endswith a "/"); [apply endswith_app |].
    rewrite <- app_assoc_s. apply endswith_app.
Qed.

Lemma download_tasks_paths b p d keys :
  Forall (fun t =>
            let rel := Download.relative_path p (Download.key t) in
            rel <> ""
            /\ endswith (Download.local_path t) rel = true
            /\ if startswith rel "/"
               then Download.local_path t = rel
               else startswith (Download.local_path t) d = true)
    (List.map (download_task b p d) (List.filter (download_keeps p) keys)).
Proof.
  induction keys as [|k keys IH]; cbn [List.filter List.map]; [constructor |].
  destruct (download_keeps p k) eqn:Hk; [|exact IH].
  cbn [List.map]. constructor; [|exact IH].
  cbn [Download.key Download.local_path download_task]. cbv zeta.
  unfold download_keeps in Hk. apply negb_true_iff, orb_false_elim in Hk.
  destruct Hk as [Hk _]. apply String.eqb_neq in Hk.
  split; [exact Hk |]. split; [apply join_ends |].
  destruct (startswith (Download.relative_path p k) "/") eqn:Hs.
  - now apply join_absolute.
  - now apply join_relative.
Qed.

(** X22. Every unit of a download has a non-empty relative path, and its
    local path ends with it. When the relative path starts with a slash
    the local path is the relative path itself, whatever the local
    directory; otherwise the local path starts with the local directory. *)
Theorem download_paths (sched : list nat) (d0 : Download.S3DirectoryDownloader)
    (s3_path local_directory : string) (max_workers : Z) :
  Forall (fun t =>
            let rel := Download.relative_path
                         (snd (Parser._parse_s3_path s3_path))
                         (Download.key t) in
            rel <> ""
            /\ endswith (Download.local_path t) rel = true
            /\ if startswith rel "/"
               then Download.local_path t = rel
               else startswith (Download.local_path t) local_directory = true)
    (Download.submitted
       (Download.download_directory E sched d0 s3_path local_directory
          max_workers)).
Proof.
  destruct (Parser._parse_s3_path s3_path) as [b p] eqn:Hparse.
  destruct (run_call E (Makedirs local_directory)) as [e|] eqn:Hmk;
    [|destruct (Z.leb_spec max_workers 0) as [HW|HW]].
  3: {
    destruct (download_directory_started E sched d0 s3_path local_directory
                max_workers b p Hparse Hmk HW) as (-> & _).
    apply download_tasks_paths. }
  all: destruct (download_directory_stopped E sched d0 s3_path local_directory
                   max_workers) as [e' ->];
    [first [left; congruence | right; lia] |]; constructor.
Qed.
End PlannerProperties.

(** ** The properties above at concrete runs *)

Section Witnesses.
Import PyStr Spec Notions.
Local Open Scope string_scope.

Lemma pool_never_deadlocks_witness :
  (0 < 2)%nat
  /\ exists i s',
       Pool.step (quiet []) 2 i
         (Pool.exec (quiet []) 2 [0; 0; 0; 1]%nat
            (Pool.submit_all [[]; []] 0 0 [])) = Some s'.
Proof.
  assert (H : (0 < 2)%nat) by lia.
  split; [exact H |].
  destruct (pool_never_deadlocks (quiet []) 2 [0; 0; 0; 1]%nat [[]; []] 0 0 [] H)
    as [Hmove|Hdone]; [exact Hmove | discriminate Hdone].
Defined.

Lemma copy_without_files_lists_once_witness :
  Copy.calls
    (Copy.final (Copy.main (quiet [Some ["a/"; "a/sub/"]; None]) []
                   "s3://bucket/a" "bucket/b" 0))
  = [Paginate "bucket" "a/"]
  /\ Copy.exit_code
       (Copy.main (quiet [Some ["a/"; "a/sub/"]; None]) []
          "s3://bucket/a" "bucket/b" 0) = 0%Z.
Proof.
  destruct (copy_without_files_lists_once
              (quiet [Some ["a/"; "a/sub/"]; None]) []
              "s3://bucket/a" "bucket/b" 0 eq_refl eq_refl eq_refl)
    as (Hcalls & _ & _ & Hexit).
  split; [exact Hcalls | exact Hexit].
Defined.

Lemma download_listing_failure_witness :
  let d := Download.download_directory
             (interrupted [Some ["a/f1.txt"; "a/sub/"]] ClientError)
             [0; 0]%nat Download.new "s3://bucket/a/" "/out" 10 in
  Download.outcome d = Raised ClientError
  /\ Download.futures d = [Pool.Done (Returned true)]
  /\ Download.downloaded_files (Download.self d) = 1%nat.
Proof.
  intros d.
  destruct (download_listing_failure
              (interrupted [Some ["a/f1.txt"; "a/sub/"]] ClientError)
              [0; 0]%nat "s3://bucket/a/" "/out" 10 ClientError
              eq_refl eq_refl eq_refl)
    as (Hout & _ & Hfut & Hok & _).
  split; [exact Hout |]. split; [exact Hfut | exact Hok].
Defined.

Lemma nonpositive_workers_abort_witness :
  (0 <= 0)%Z
  /\ Download.calls
       (Download.download_directory (quiet scenario_listing) [] Download.new
          "s3://bucket/a/" "/out" 0) = [Makedirs "/out"]
  /\ Copy.total_files
       (Copy.self
          (Copy.copy_folder (quiet scenario_listing) [] Copy.new
             "s3://bucket/a/" "s3://bucket/b/" 0)) = 2%nat.
Proof.
  assert (HW : (0 <= 0)%Z) by lia.
  assert (Hcount : List.length
                     (List.filter copy_keeps
                        (listed (pages (paginate (quiet scenario_listing) 0
                           (fst (Parser._parse_s3_path "s3://bucket/a/"))
                           (snd (Parser._parse_s3_path "s3://bucket/a/"))))))
                   <> 0%nat) by (vm_compute; discriminate).
  split; [exact HW |].
  destruct (nonpositive_workers_abort (quiet scenario_listing) []
              "s3://bucket/a/" "/out" "s3://bucket/a/" "s3://bucket/b/" 0
              HW eq_refl eq_refl eq_refl Hcount)
    as (_ & Hcalls & _ & _ & _ & _ & Htotal).
  split; [exact Hcalls | exact Htotal].
Defined.

Lemma parse_of_address_witness :
  has_slash "bucket-name" = false
  /\ Parser._parse_s3_path (address "bucket-name" "logs/2024/")
     = ("bucket-name", "logs/2024/").
Proof.
  assert (H : has_slash "bucket-name" = false) by reflexivity.
  split; [exact H |].
  apply (parse_of_address "bucket-name" "logs/2024/" H).
  right. reflexivity.
Defined.

Lemma address_spellings_witness :
  Parser._parse_s3_path "bucket/logs/2024" = ("bucket", "logs/2024/")
  /\ Parser._parse_s3_path "s3://bucket/logs/2024/" = ("bucket", "logs/2024/").
Proof.
  assert (H1 : has_slash "bucket" = false) by reflexivity.
  assert (H2 : "bucket" <> "s3:") by discriminate.
  assert (H3 : "logs/2024" <> "") by discriminate.
  assert (H4 : endswith "logs/2024" "/" = false) by reflexivity.
  destruct (address_spellings "bucket" "logs/2024" H1 H2 H3 H4)
    as (Ha & _ & _ & Hd).
  split; [exact Ha | exact Hd].
Defined.

Lemma planners_pick_the_same_keys_witness :
  List.map Download.key
    (snd (Download.each_page "bucket" "a/" "/out" scenario_listing (0%nat, [])))
  = List.map Copy.source_key
      (Copy.each_page "bucket" "a/" "b/" scenario_listing [])
  /\ Copy.count_pages scenario_listing 0 = 2%nat.
Proof.
  assert (Hp : "a/" = "" \/ endswith "a/" "/" = true) by (right; reflexivity).
  assert (Hk : Forall (fun key => startswith key "a/" = true /\ key <> "")
                 (listed scenario_listing)).
  { repeat constructor; discriminate. }
  destruct (planners_pick_the_same_keys "bucket" "a/" "/out" "b/"
              scenario_listing 0 Hp Hk) as [Hkeys Hcount].
  split; [exact Hkeys |]. rewrite Hcount. reflexivity.
Defined.

Lemma copy_destinations_are_distinct_witness :
  let t1 := {| Copy.bucket_name := "bucket"; Copy.source_key := "a/f1.txt";
               Copy.dest_key := "b/f1.txt" |} in
  In t1 (Copy.submitted
           (Copy.copy_folder (quiet scenario_listing) [] Copy.new
              "s3://bucket/a/" "s3://bucket/b/" 10))
  /\ t1 = t1.
Proof.
  intros t1.
  assert (Hin : In t1 (Copy.submitted
                         (Copy.copy_folder (quiet scenario_listing) [] Copy.new
                            "s3://bucket/a/" "s3://bucket/b/" 10)))
    by (left; reflexivity).
  split; [exact Hin |].
  exact (copy_destinations_are_distinct (quiet scenario_listing) [] Copy.new
           "s3://bucket/a/" "s3://bucket/b/" 10 t1 t1 Hin Hin eq_refl eq_refl
           eq_refl).
Defined.

Lemma copy_onto_itself_witness :
  Forall (fun t => startswith (Copy.source_key t) "a/" = true ->
                   Copy.dest_key t = Copy.source_key t)
    (Copy.submitted
       (Copy.copy_folder (quiet scenario_listing) [] Copy.new
          "s3://bucket/a/" "bucket/a" 10))
  /\ List.length
       (Copy.submitted
          (Copy.copy_folder (quiet scenario_listing) [] Copy.new
             "s3://bucket/a/" "bucket/a" 10)) = 2%nat.
Proof.
  split; [|reflexivity].
  exact (copy_onto_itself (quiet scenario_listing) [] Copy.new
           "s3://bucket/a/" "bucket/a" 10 eq_refl).
Defined.
End Witnesses.
